(** * trx-ft8: the FT8 decoder wrapper ([src/trx-ft8/src/ft8_wrapper.c])

    A shallow embedding of the callsign hash table, of the per-cycle table of
    decoded messages and of the decode loop, with the properties of the
    specification stated and settled against it.

    Conventions of the embedding.
    - [uint32_t], [uint16_t], [uint8_t] and [int] values are integers of [Z];
      where the C arithmetic can wrap, the wrap is written out ([wrap32]).
    - A C array is a [list] read with [!!] and written with [<[i:=x]>]; the
      two tables have a fixed number of slots (256 and 200).
    - A C string is a [string]: the characters before the terminating NUL.
      The 12-byte [callsign] field is only ever read as a C string and only
      ever written by [strncpy (.., 11)] followed by a NUL at index 11, or by
      a NUL at index 0, so its C-string value is all that can be observed.
    - A loop that the C code leaves only through a test on the table is
      modelled with a fuel argument; the functions of the wrapper run it with
      as much fuel as the table has slots and return [Hang] when that is not
      enough, which is justified by [linear_probe_None_forever]: the loop
      then never exits. *)

From Stdlib Require Import ZArith Lia.
From Stdlib Require QArith.
From stdpp Require Import base list strings pretty.

Local Open Scope nat_scope.

(** ** Outcomes of a call *)

(** The three loops of the file that have no bound of their own. *)
Inductive loop_id : Type :=
  | LoopSave     (* the [while] of [hashtable_add] *)
  | LoopLookup   (* the [while] of [hashtable_lookup] *)
  | LoopDedup.   (* the [do .. while] of [ft8_decoder_decode] *)

(** A call either returns a value or never returns because one of the loops
    spins. *)
Inductive outcome (A : Type) : Type :=
  | Done (a : A)
  | Hang (l : loop_id).
Arguments Done {A} a.
Arguments Hang {A} l.

Global Instance outcome_ret : MRet outcome := λ A a, Done a.

Global Instance outcome_bind : MBind outcome := λ A B k m,
  match m with
  | Done a => k a
  | Hang l => Hang l
  end.

Definition returns {A : Type} (m : outcome A) : Prop := ∃ a, m = Done a.

(** ** Linear probing

    The three probing loops have the same shape: starting from a slot, stop
    at a free slot, stop at a slot that matches, otherwise step to the next
    slot modulo the table size.  [linear_probe] is that loop; [fuel] bounds
    the number of slots inspected.  Every index is a remainder modulo the
    table size, so the case of an index outside the table does not arise in
    a table of [N] slots. *)

Inductive probe_stop : Type :=
  | AtFree (idx : nat)
  | AtHit (idx : nat).

Definition stop_idx (r : probe_stop) : nat :=
  match r with AtFree i => i | AtHit i => i end.

Section linear_probe.
Context {A : Type}.
Variable N : nat.
Variables free hit : A → bool.

Fixpoint linear_probe (fuel : nat) (t : list A) (idx : nat) : option probe_stop :=
  match fuel with
  | 0 => None
  | S fuel' =>
    match t !! idx with
    | None => None
    | Some e =>
      if free e then Some (AtFree idx)
      else if hit e then Some (AtHit idx)
      else linear_probe fuel' t ((idx + 1) mod N)
    end
  end.

(** A slot the probe passes over: occupied and not matching. *)
Definition passed (t : list A) (i : nat) : Prop :=
  ∃ e, t !! i = Some e ∧ free e = false ∧ hit e = false.

(** A slot the probe stops at, with the verdict it gives there. *)
Definition stops (t : list A) (r : probe_stop) : Prop :=
  match r with
  | AtFree i => ∃ e, t !! i = Some e ∧ free e = true
  | AtHit i => ∃ e, t !! i = Some e ∧ free e = false ∧ hit e = true
  end.
End linear_probe.

(** ** The callsign hash table *)

Definition CALLSIGN_HASHTABLE_SIZE : nat := 256.

Record callsign_hashtable_entry_t : Type := {
  ce_hash : Z;            (* uint32_t hash: age in bits 31..24, identity in bits 21..0 *)
  ce_callsign : string    (* char callsign[12] *)
}.

(** The two file-scope variables.  [callsign_hashtable_size] is an [int]
    that is only incremented and decremented; it stays within the number of
    saves and is not wrapped. *)
Record cache : Type := {
  callsign_hashtable : list callsign_hashtable_entry_t;
  callsign_hashtable_size : Z
}.

Definition wrap32 (z : Z) : Z := (z mod 2 ^ 32)%Z.

(** [strncpy (dst, src, n); dst[n] = 0]: the first [n] characters. *)
Fixpoint strncpy (n : nat) (src : string) : string :=
  match n, src with
  | S n', String c s' => String c (strncpy n' s')
  | _, _ => EmptyString
  end.

Definition zero_entry : callsign_hashtable_entry_t :=
  {| ce_hash := 0; ce_callsign := "" |}.

(** [callsign[0] != 0] *)
Definition occupied (e : callsign_hashtable_entry_t) : bool :=
  negb (String.eqb (ce_callsign e) "").

Definition slot_free (e : callsign_hashtable_entry_t) : bool := negb (occupied e).

Definition hashtable_init : cache :=
  {| callsign_hashtable := replicate CALLSIGN_HASHTABLE_SIZE zero_entry;
     callsign_hashtable_size := 0 |}.

(** The age byte, [(uint8_t)(hash >> 24)]. *)
Definition entry_age (e : callsign_hashtable_entry_t) : Z :=
  (Z.shiftr (ce_hash e) 24 mod 256)%Z.

(** The identity bits, [hash & 0x3FFFFF]. *)
Definition entry_id (e : callsign_hashtable_entry_t) : Z :=
  Z.land (ce_hash e) 0x3FFFFF.

(** The body of the [for] loop of [hashtable_cleanup] at index [idx_hash]. *)
Definition cleanup_slot (max_age : Z) (g : cache) (idx_hash : nat) : cache :=
  match callsign_hashtable g !! idx_hash with
  | None => g
  | Some e =>
    if occupied e then
      let age := entry_age e in
      if (age >=? max_age)%Z then
        {| callsign_hashtable := <[idx_hash := zero_entry]> (callsign_hashtable g);
           callsign_hashtable_size := (callsign_hashtable_size g - 1)%Z |}
      else
        {| callsign_hashtable :=
             <[idx_hash := {| ce_hash := Z.lor (wrap32 (Z.shiftl (wrap32 (age + 1)) 24))
                                               (Z.land (ce_hash e) 0x3FFFFF);
                              ce_callsign := ce_callsign e |}]> (callsign_hashtable g);
           callsign_hashtable_size := callsign_hashtable_size g |}
    else g
  end.

Definition hashtable_cleanup (max_age : Z) (g : cache) : cache :=
  fold_left (cleanup_slot max_age) (seq 0 CALLSIGN_HASHTABLE_SIZE) g.

(** The test of [hashtable_add] on an occupied slot. *)
Definition add_match (callsign : string) (hash : Z) (e : callsign_hashtable_entry_t) : bool :=
  (Z.land (ce_hash e) 0x3FFFFF =? hash)%Z && String.eqb (ce_callsign e) callsign.

(** The [while] loop of [hashtable_add]. *)
Definition add_probe (fuel : nat) (t : list callsign_hashtable_entry_t)
    (callsign : string) (hash : Z) : option probe_stop :=
  linear_probe CALLSIGN_HASHTABLE_SIZE slot_free (add_match callsign hash) fuel t
    (Z.to_nat (hash mod 256)).

Definition hashtable_add (callsign : string) (hash : Z) (g : cache) : outcome cache :=
  match add_probe CALLSIGN_HASHTABLE_SIZE (callsign_hashtable g) callsign hash with
  | None => Hang LoopSave
  | Some (AtHit idx_hash) =>
    match callsign_hashtable g !! idx_hash with
    | None => Done g
    | Some e =>
      Done {| callsign_hashtable :=
                <[idx_hash := {| ce_hash := Z.land (ce_hash e) 0x3FFFFF;
                                 ce_callsign := ce_callsign e |}]> (callsign_hashtable g);
              callsign_hashtable_size := callsign_hashtable_size g |}
    end
  | Some (AtFree idx_hash) =>
    Done {| callsign_hashtable :=
              <[idx_hash := {| ce_hash := hash; ce_callsign := strncpy 11 callsign |}]>
                (callsign_hashtable g);
            callsign_hashtable_size := (callsign_hashtable_size g + 1)%Z |}
  end.

Inductive ftx_callsign_hash_type_t : Type :=
  | FTX_CALLSIGN_HASH_22
  | FTX_CALLSIGN_HASH_12
  | FTX_CALLSIGN_HASH_10.

Definition hash_shift (hash_type : ftx_callsign_hash_type_t) : Z :=
  match hash_type with
  | FTX_CALLSIGN_HASH_22 => 0
  | FTX_CALLSIGN_HASH_12 => 10
  | FTX_CALLSIGN_HASH_10 => 12
  end.

Definition hash_mask (hash_type : ftx_callsign_hash_type_t) : Z :=
  match hash_type with
  | FTX_CALLSIGN_HASH_22 => 0x3FFFFF
  | FTX_CALLSIGN_HASH_12 => 0xFFF
  | FTX_CALLSIGN_HASH_10 => 0x3FF
  end.

(** The test of [hashtable_lookup] on an occupied slot. *)
Definition lookup_match (hash_type : ftx_callsign_hash_type_t) (hash : Z)
    (e : callsign_hashtable_entry_t) : bool :=
  (Z.shiftr (Z.land (ce_hash e) 0x3FFFFF) (hash_shift hash_type)
   =? Z.land hash (hash_mask hash_type))%Z.

(** The [while] loop of [hashtable_lookup]. *)
Definition lookup_probe (fuel : nat) (t : list callsign_hashtable_entry_t)
    (hash_type : ftx_callsign_hash_type_t) (hash : Z) : option probe_stop :=
  linear_probe CALLSIGN_HASHTABLE_SIZE slot_free (lookup_match hash_type hash) fuel t
    (Z.to_nat (hash mod 256)).

(** Returns the [bool] result and the contents of the [callsign] buffer. *)
Definition hashtable_lookup (hash_type : ftx_callsign_hash_type_t) (hash : Z)
    (g : cache) : outcome (bool * string) :=
  match lookup_probe CALLSIGN_HASHTABLE_SIZE (callsign_hashtable g) hash_type hash with
  | None => Hang LoopLookup
  | Some (AtHit idx_hash) =>
    match callsign_hashtable g !! idx_hash with
    | None => Done (false, "")
    | Some e => Done (true, ce_callsign e)
    end
  | Some (AtFree _) => Done (false, "")
  end.

(** ** Decoded messages and the per-cycle table *)

Record ftx_message_t : Type := {
  msg_payload : list Z;   (* uint8_t payload[FTX_PAYLOAD_LENGTH_BYTES] *)
  msg_hash : Z            (* uint16_t hash *)
}.

Global Instance ftx_message_eq_dec : EqDecision ftx_message_t.
Proof. solve_decision. Defined.

Record ftx_candidate_t : Type := {
  score : Z;
  time_offset : Z;
  freq_offset : Z;
  time_sub : Z;
  freq_sub : Z
}.

(** [decoded_hashtable[i]] is either [NULL] or [&decoded[i]]: slot [i] holds
    no message or the message copied into [decoded[i]]. *)
Definition DECODED_SIZE : nat := 200.

Definition dedup_free (s : option ftx_message_t) : bool :=
  match s with None => true | Some _ => false end.

(** The test of the [else if] of the [do .. while] loop. *)
Definition dedup_match (message : ftx_message_t) (s : option ftx_message_t) : bool :=
  match s with
  | None => false
  | Some m =>
    (msg_hash m =? msg_hash message)%Z
    && bool_decide (msg_payload m = msg_payload message)
  end.

(** The [do .. while] loop of [ft8_decoder_decode]: [AtFree] is
    [found_empty_slot], [AtHit] is [found_duplicate]. *)
Definition dedup_probe (fuel : nat) (t : list (option ftx_message_t))
    (message : ftx_message_t) : option probe_stop :=
  linear_probe DECODED_SIZE dedup_free (dedup_match message) fuel t
    (Z.to_nat (msg_hash message mod 200)).

(** ** The library the wrapper calls

    [ftx_message_decode] receives [hash_if], the pair of [hashtable_lookup]
    and [hashtable_add], and may call them any number of times before it
    returns; an [unpack_prog] is what it does with them. *)
Inductive unpack_prog : Type :=
  | UnpackRet (rc : Z) (text : string)
  | UnpackLookup (hash_type : ftx_callsign_hash_type_t) (hash : Z)
      (k : bool → string → unpack_prog)
  | UnpackSave (callsign : string) (hash : Z) (k : unpack_prog).

Fixpoint run_unpack (p : unpack_prog) (g : cache) : outcome (Z * string * cache) :=
  match p with
  | UnpackRet rc text => Done (rc, text, g)
  | UnpackLookup hash_type hash k =>
    match hashtable_lookup hash_type hash g with
    | Done (found, callsign) => run_unpack (k found callsign) g
    | Hang l => Hang l
    end
  | UnpackSave callsign hash k =>
    match hashtable_add callsign hash g with
    | Done g' => run_unpack k g'
    | Hang l => Hang l
    end
  end.

Record monitor_config_t (float : Type) : Type := {
  f_min : float;
  f_max : float;
  sample_rate : Z;
  time_osr : Z;
  freq_osr : Z;
  protocol : Z
}.
Arguments f_min {float} _.
Arguments f_max {float} _.
Arguments sample_rate {float} _.
Arguments time_osr {float} _.
Arguments freq_osr {float} _.
Arguments protocol {float} _.

(** What the headers of ft8_lib declare and its objects define: the types
    and constants of [ft8/message.h], [ft8/decode.h] and [common/monitor.h],
    arithmetic on [float], and the external functions the wrapper calls.
    [calloc] and the monitor are outside the file as well. *)
Class ft8_lib : Type := {
  float : Type;
  float_of_int : Z → float;
  float_add : float → float → float;
  float_mul : float → float → float;
  float_div : float → float → float;
  float_half : float;                  (* 0.5f *)
  monitor_t : Type;
  min_bin : monitor_t → Z;
  symbol_period : monitor_t → float;
  wf_time_osr : monitor_t → Z;
  wf_freq_osr : monitor_t → Z;
  FTX_PROTOCOL_FT8 : Z;
  FTX_MAX_MESSAGE_LENGTH : nat;
  FTX_MESSAGE_RC_OK : Z;
  monitor_init : monitor_config_t float → monitor_t;
  monitor_reset : monitor_t → monitor_t;
  ftx_find_candidates : monitor_t → nat → Z → list ftx_candidate_t;
  ftx_decode_candidate : monitor_t → ftx_candidate_t → Z → option ftx_message_t;
  ftx_message_decode : ftx_message_t → unpack_prog
}.

(** ** The decoder wrapper *)

Section wrapper.
Context {L : ft8_lib}.

Record ft8_decoder_t : Type := {
  mon : monitor_t;
  cfg : monitor_config_t float
}.

Record ft8_decode_result_t : Type := {
  text : string;     (* char text[FTX_MAX_MESSAGE_LENGTH] *)
  snr_db : float;
  dt_s : float;
  freq_hz : float
}.

(** [calloc_ok] tells whether the allocation succeeds.  Returns the new
    decoder ([None] for [NULL]) and the file-scope table. *)
Definition ft8_decoder_create (calloc_ok : bool) (sample_rate : Z) (f_min f_max : float)
    (time_osr freq_osr : Z) (g : cache) : option ft8_decoder_t * cache :=
  if calloc_ok then
    let cfg := {| f_min := f_min; f_max := f_max; sample_rate := sample_rate;
                  time_osr := time_osr; freq_osr := freq_osr;
                  protocol := FTX_PROTOCOL_FT8 |} in
    (Some {| mon := monitor_init cfg; cfg := cfg |}, hashtable_init)
  else (None, g).

Definition ft8_decoder_reset (dec : option ft8_decoder_t) (g : cache)
    : option ft8_decoder_t * cache :=
  match dec with
  | None => (None, g)
  | Some d => (Some {| mon := monitor_reset (mon d); cfg := cfg d |}, g)
  end.

Definition kMaxCandidates : nat := 200.
Definition kMinScore : Z := 10.
Definition kLdpcIters : Z := 30.

(** [snprintf (text, n, "Error [%d] while unpacking!", rc)] *)
Definition snprintf_error (n : nat) (rc : Z) : string :=
  strncpy (n - 1) ("Error [" +:+ pretty rc +:+ "] while unpacking!").

(** The locals of [ft8_decoder_decode] that live across iterations, the
    caller's buffer and the file-scope table. *)
Record decode_state : Type := {
  num_decoded : Z;
  out_buf : list ft8_decode_result_t;   (* out[0 ..] *)
  decoded_hashtable : list (option ftx_message_t);
  st_cache : cache
}.

Definition cand_freq_hz (d : ft8_decoder_t) (cand : ftx_candidate_t) : float :=
  float_div
    (float_add (float_of_int (min_bin (mon d) + freq_offset cand))
               (float_div (float_of_int (freq_sub cand))
                          (float_of_int (wf_freq_osr (mon d)))))
    (symbol_period (mon d)).

Definition cand_time_sec (d : ft8_decoder_t) (cand : ftx_candidate_t) : float :=
  float_mul
    (float_add (float_of_int (time_offset cand))
               (float_div (float_of_int (time_sub cand))
                          (float_of_int (wf_time_osr (mon d)))))
    (symbol_period (mon d)).

(** The record written to [out[num_decoded]]. *)
Definition make_result (d : ft8_decoder_t) (cand : ftx_candidate_t)
    (unpack_status : Z) (unpacked : string) : ft8_decode_result_t :=
  let text := if bool_decide (unpack_status ≠ FTX_MESSAGE_RC_OK)
              then snprintf_error FTX_MAX_MESSAGE_LENGTH unpack_status
              else unpacked in
  {| text := strncpy (FTX_MAX_MESSAGE_LENGTH - 1) text;
     snr_db := float_mul (float_of_int (score cand)) float_half;
     dt_s := cand_time_sec d cand;
     freq_hz := cand_freq_hz d cand |}.

(** The [for] loop over [candidate_list]: one candidate per call.  The
    caller promises [max_results] records in [out]; a write past the end of
    a shorter buffer, undefined in C, leaves the list as it is. *)
Fixpoint decode_loop (d : ft8_decoder_t) (max_results : Z)
    (candidate_list : list ftx_candidate_t) (st : decode_state) : outcome decode_state :=
  match candidate_list with
  | [] => Done st
  | cand :: rest =>
    if (num_decoded st <? max_results)%Z then
      match ftx_decode_candidate (mon d) cand kLdpcIters with
      | None => decode_loop d max_results rest st
      | Some message =>
        match dedup_probe DECODED_SIZE (decoded_hashtable st) message with
        | None => Hang LoopDedup
        | Some (AtHit _) => decode_loop d max_results rest st
        | Some (AtFree idx_hash) =>
          match run_unpack (ftx_message_decode message) (st_cache st) with
          | Hang l => Hang l
          | Done (unpack_status, unpacked, g) =>
            decode_loop d max_results rest
              {| num_decoded := (num_decoded st + 1)%Z;
                 out_buf := <[Z.to_nat (num_decoded st) :=
                            make_result d cand unpack_status unpacked]> (out_buf st);
                 decoded_hashtable := <[idx_hash := Some message]> (decoded_hashtable st);
                 st_cache := g |}
          end
        end
      end
    else Done st
  end.

(** What a call of [ft8_decoder_decode] leaves behind: the value returned,
    the decoder, the caller's buffer and the file-scope table. *)
Record decode_return : Type := {
  ret : Z;
  dec_after : option ft8_decoder_t;
  out_after : option (list ft8_decode_result_t);
  cache_after : cache
}.

Definition ft8_decoder_decode (dec : option ft8_decoder_t)
    (out : option (list ft8_decode_result_t)) (max_results : Z) (g : cache)
    : outcome decode_return :=
  match dec, out with
  | Some d, Some o =>
    if (max_results <=? 0)%Z then
      Done {| ret := 0; dec_after := dec; out_after := out; cache_after := g |}
    else
      let candidate_list := ftx_find_candidates (mon d) kMaxCandidates kMinScore in
      st ← decode_loop d max_results candidate_list
             {| num_decoded := 0; out_buf := o;
                decoded_hashtable := replicate DECODED_SIZE None;
                st_cache := g |};
      Done {| ret := num_decoded st; dec_after := dec; out_after := Some (out_buf st);
              cache_after := hashtable_cleanup 10 (st_cache st) |}
  | _, _ => Done {| ret := 0; dec_after := dec; out_after := out; cache_after := g |}
  end.

End wrapper.

(** ** Definitions used to state the properties *)

(** Number of elements of a list that pass a test. *)
Fixpoint count_if {A : Type} (p : A → bool) (l : list A) : nat :=
  match l with
  | [] => 0
  | x :: l' => (if p x then 1 else 0) + count_if p l'
  end.

(** A table of the right size. *)
Definition cache_wf (g : cache) : Prop :=
  length (callsign_hashtable g) = CALLSIGN_HASHTABLE_SIZE.

(** The slots [hashtable_cleanup] clears. *)
Definition evicted (max_age : Z) (e : callsign_hashtable_entry_t) : bool :=
  occupied e && (entry_age e >=? max_age)%Z.

(** What one pass of [hashtable_cleanup] makes of one slot. *)
Definition aged_entry (max_age : Z) (e : callsign_hashtable_entry_t)
    : callsign_hashtable_entry_t :=
  if occupied e then
    if (entry_age e >=? max_age)%Z then zero_entry
    else {| ce_hash := Z.lor (wrap32 (Z.shiftl (wrap32 (entry_age e + 1)) 24))
                             (Z.land (ce_hash e) 0x3FFFFF);
            ce_callsign := ce_callsign e |}
  else e.

(** [n] decode cycles' worth of [hashtable_cleanup]. *)
Definition cleanups (max_age : Z) (n : nat) (g : cache) : cache :=
  Nat.iter n (hashtable_cleanup max_age) g.

(** Sequences of operations on the table. *)
Inductive cache_op : Type :=
  | OpInit
  | OpSave (callsign : string) (hash : Z)
  | OpCleanup (max_age : Z).

Definition run_op (op : cache_op) (g : cache) : outcome cache :=
  match op with
  | OpInit => Done hashtable_init
  | OpSave callsign hash => hashtable_add callsign hash g
  | OpCleanup max_age => Done (hashtable_cleanup max_age g)
  end.

Fixpoint run_ops (ops : list cache_op) (g : cache) : outcome cache :=
  match ops with
  | [] => Done g
  | op :: ops' =>
    match run_op op g with
    | Done g' => run_ops ops' g'
    | Hang l => Hang l
    end
  end.

(** 256 stations, one per slot: "C0" with hash 0 up to "C255" with hash 255. *)
Definition fill_ops : list cache_op :=
  (λ i, OpSave ("C" +:+ pretty i) (Z.of_nat i)) <$> seq 0 CALLSIGN_HASHTABLE_SIZE.

(** Station "SP1AAA" (hash 0) is heard in one cycle only; station "SP2BBB"
    (hash 256, same home slot) is heard in each of the ten cycles after it
    and once more in the cycle after those.  Every cycle ends with
    [hashtable_cleanup (10)], as [ft8_decoder_decode] does. *)
Definition two_station_ops : list cache_op :=
  [OpInit; OpSave "SP1AAA" 0; OpCleanup 10]
  ++ mjoin (replicate 10 [OpSave "SP2BBB" 256; OpCleanup 10])
  ++ [OpSave "SP2BBB" 256].

(** The states of [decoded_hashtable] within one call of
    [ft8_decoder_decode]: all [NULL] at first, then one message stored by
    each iteration that leaves the [do .. while] loop with
    [found_empty_slot].  The second index lists the messages stored, the
    latest first. *)
Inductive dedup_reachable : list (option ftx_message_t) → list ftx_message_t → Prop :=
  | dedup_start : dedup_reachable (replicate DECODED_SIZE None) []
  | dedup_store t ms message idx_hash :
      dedup_reachable t ms →
      dedup_probe DECODED_SIZE t message = Some (AtFree idx_hash) →
      dedup_reachable (<[idx_hash := Some message]> t) (message :: ms).

(** The two verdicts of the [do .. while] loop. *)
Definition found_duplicate (t : list (option ftx_message_t)) (message : ftx_message_t) : Prop :=
  ∃ idx_hash, dedup_probe DECODED_SIZE t message = Some (AtHit idx_hash).

Definition found_empty_slot (t : list (option ftx_message_t)) (message : ftx_message_t) : Prop :=
  ∃ idx_hash, dedup_probe DECODED_SIZE t message = Some (AtFree idx_hash).

(** A payload of 10 bytes ([FTX_PAYLOAD_LENGTH_BYTES] in ft8_lib): [b]
    followed by zeros. *)
Definition payload_of_byte (b : Z) : list Z := b :: replicate 9 0%Z.

(** Number of free slots of the callsign table. *)
Definition free_slots (g : cache) : nat := count_if slot_free (callsign_hashtable g).

(** [saves_le n p]: whatever the lookups answer, [p] calls [save_hash] at
    most [n] times. *)
Inductive saves_le : nat → unpack_prog → Prop :=
  | saves_ret n rc text : saves_le n (UnpackRet rc text)
  | saves_lookup n hash_type hash k :
      (∀ found callsign, saves_le n (k found callsign)) →
      saves_le n (UnpackLookup hash_type hash k)
  | saves_save n callsign hash k :
      saves_le n k → saves_le (S n) (UnpackSave callsign hash k).

Section wrapper_spec.
Context {L : ft8_lib}.

(** The steps 2b and 2c of the decode cycle in the words of the
    specification: the candidates, in the order received, that decode and
    whose message (hash and payload) was not decoded from an earlier
    candidate, each with its message.  [seen] holds the messages decoded so
    far. *)
Fixpoint spec_unique_decoded (d : ft8_decoder_t) (seen : list ftx_message_t)
    (candidate_list : list ftx_candidate_t) : list (ftx_candidate_t * ftx_message_t) :=
  match candidate_list with
  | [] => []
  | cand :: rest =>
    match ftx_decode_candidate (mon d) cand kLdpcIters with
    | None => spec_unique_decoded d seen rest
    | Some message =>
      if decide (message ∈ seen) then spec_unique_decoded d seen rest
      else (cand, message) :: spec_unique_decoded d (message :: seen) rest
    end
  end.

(** A message that a candidate of the list decodes to. *)
Definition decoded_before (d : ft8_decoder_t) (candidate_list : list ftx_candidate_t)
    (m : ftx_message_t) : Prop :=
  ∃ c, c ∈ candidate_list ∧ ftx_decode_candidate (mon d) c kLdpcIters = Some m.

End wrapper_spec.

(** [s] occurs in [t]. *)
Definition contains (s t : string) : Prop := ∃ pre post, t = pre +:+ s +:+ post.

(** ** A small instance of the library

    Used to run the wrapper on concrete inputs.  The monitor is the list of
    candidates the search finds; a candidate with a score below 20 does not
    decode; the others decode to the payload [payload_of_byte] of
    [freq_offset] and a hash taken from [time_offset].  A payload that
    starts with 3 fails to unpack with code 3; a payload that starts with
    another byte [b] saves the callsign "K" [b] under the hash of the
    message, looks it up again by the full hash and prints what it found. *)
Definition toy_unpack (message : ftx_message_t) : unpack_prog :=
  match msg_payload message with
  | b :: _ =>
    if (b =? 3)%Z then UnpackRet 3 ""
    else UnpackSave ("K" +:+ pretty b) (msg_hash message)
           (UnpackLookup FTX_CALLSIGN_HASH_22 (msg_hash message)
              (λ found callsign, UnpackRet 0 ("CQ " +:+ callsign)))
  | [] => UnpackRet 5 ""
  end.

Definition toy_lib : ft8_lib := {|
  float := QArith_base.Q;
  float_of_int := QArith_base.inject_Z;
  float_add := QArith_base.Qplus;
  float_mul := QArith_base.Qmult;
  float_div := QArith_base.Qdiv;
  float_half := QArith_base.Qmake 1 2;
  monitor_t := list ftx_candidate_t;
  min_bin := λ _, 0%Z;
  symbol_period := λ _, QArith_base.Qmake 4 25;
  wf_time_osr := λ _, 2%Z;
  wf_freq_osr := λ _, 2%Z;
  FTX_PROTOCOL_FT8 := 1;
  FTX_MAX_MESSAGE_LENGTH := 35;
  FTX_MESSAGE_RC_OK := 0;
  monitor_init := λ _, [];
  monitor_reset := λ _, [];
  ftx_find_candidates := λ m n min_score,
    take n (List.filter (λ c, (min_score <=? score c)%Z) m);
  ftx_decode_candidate := λ _ c _,
    if (score c <? 20)%Z then None
    else Some {| msg_payload := payload_of_byte (freq_offset c mod 256);
                 msg_hash := (time_offset c mod 65536)%Z |};
  ftx_message_decode := toy_unpack
|}.

Definition toy_cfg : monitor_config_t QArith_base.Q :=
  {| f_min := QArith_base.inject_Z 200; f_max := QArith_base.inject_Z 3000;
     sample_rate := 12000; time_osr := 2; freq_osr := 2; protocol := 1 |}.

(** A candidate of the toy monitor, by the hash and payload byte of its
    message. *)
Definition toy_cand (hash byte : Z) : ftx_candidate_t :=
  {| score := 30; time_offset := hash; freq_offset := byte; time_sub := 0; freq_sub := 0 |}.

Definition toy_decoder (candidates : list ftx_candidate_t) : @ft8_decoder_t toy_lib :=
  @Build_ft8_decoder_t toy_lib candidates toy_cfg.

Definition toy_blank : @ft8_decode_result_t toy_lib :=
  @Build_ft8_decode_result_t toy_lib "" (QArith_base.inject_Z 0)
    (QArith_base.inject_Z 0) (QArith_base.inject_Z 0).

(** 50 candidates with 50 different messages. *)
Definition fifty_candidates : list ftx_candidate_t :=
  (λ i, toy_cand (Z.of_nat i) (Z.of_nat (10 + i))) <$> seq 0 50.


(** The state in which the loop starts on an empty callsign table. *)
Definition toy_start (o : list (@ft8_decode_result_t toy_lib)) : @decode_state toy_lib :=
  @Build_decode_state toy_lib 0 o (replicate DECODED_SIZE None) hashtable_init.

(** Saves of the empty callsign are set apart: the empty string is the mark
    of a free slot. *)
Definition op_ok (op : cache_op) : Prop :=
  match op with
  | OpSave callsign _ => callsign ≠ ""
  | _ => True
  end.

(** The live count agrees with the slots in use. *)
Definition count_ok (g : cache) : Prop :=
  callsign_hashtable_size g = Z.of_nat (count_if occupied (callsign_hashtable g)).

(** The table after "K1ABC" has been saved with hash 1234567 into the empty
    table: the entry is in slot 1234567 % 256 = 135. *)
Definition k1abc_saved : cache :=
  {| callsign_hashtable :=
       <[135 := {| ce_hash := 1234567; ce_callsign := "K1ABC" |}]>
         (replicate CALLSIGN_HASHTABLE_SIZE zero_entry);
     callsign_hashtable_size := 1 |}.

(** ** Definitions used to state further properties of the table *)

(** A save as [ftx_message_decode] makes it: a callsign that is not empty
    and a hash that fits [uint32_t]; a cleanup with a [uint8_t] age. *)
Definition op_typed (op : cache_op) : Prop :=
  match op with
  | OpInit => True
  | OpSave callsign hash => callsign ≠ "" ∧ (0 ≤ hash < 2 ^ 32)%Z
  | OpCleanup max_age => (0 ≤ max_age ≤ 255)%Z
  end.

(** What every slot of the table looks like: the callsign fits the field,
    the hash word fits 32 bits, and a free slot is all zero. *)
Definition entry_ok (e : callsign_hashtable_entry_t) : Prop :=
  String.length (ce_callsign e) ≤ 11
  ∧ (0 ≤ ce_hash e < 2 ^ 32)%Z
  ∧ (occupied e = false → e = zero_entry).

(** Tables built from the empty table by saves alone (no cleanup in
    between), with the callsigns and 22-bit hashes saved, the latest
    first. *)
Inductive saved_only : cache → list (string * Z) → Prop :=
  | saved_init : saved_only hashtable_init []
  | saved_add g l callsign hash g' :
      saved_only g l →
      callsign ≠ "" → String.length callsign ≤ 11 → (0 ≤ hash < 2 ^ 22)%Z →
      hashtable_add callsign hash g = Done g' →
      saved_only g' ((callsign, hash) :: l).

(** What holds of a table built by saves alone: its size; every entry in use
    is one of the pairs saved, with age 0; every pair saved sits in a slot
    reached from its home slot over slots in use; and no pair sits in two
    slots. *)
Definition saved_inv (g : cache) (l : list (string * Z)) : Prop :=
  cache_wf g
  ∧ (∀ i e, callsign_hashtable g !! i = Some e → occupied e = true →
       (ce_callsign e, ce_hash e) ∈ l ∧ (0 ≤ ce_hash e < 2 ^ 22)%Z)
  ∧ (∀ callsign hash, (callsign, hash) ∈ l →
       ∃ k, k < CALLSIGN_HASHTABLE_SIZE
         ∧ callsign_hashtable g
             !! ((Z.to_nat (hash mod 256) + k) mod CALLSIGN_HASHTABLE_SIZE)
           = Some {| ce_hash := hash; ce_callsign := callsign |}
         ∧ callsign ≠ "" ∧ (0 ≤ hash < 2 ^ 22)%Z
         ∧ ∀ k', k' < k →
             ∃ e', callsign_hashtable g
                     !! ((Z.to_nat (hash mod 256) + k') mod CALLSIGN_HASHTABLE_SIZE)
                   = Some e'
                   ∧ slot_free e' = false)
  ∧ (∀ i j e e', callsign_hashtable g !! i = Some e →
       callsign_hashtable g !! j = Some e' → occupied e = true →
       ce_callsign e = ce_callsign e' → ce_hash e = ce_hash e' → i = j).

(** The table after the 16-character callsign "VERYLONGCALLSIGN" has been
    saved with hash 7 into the empty table: the first 11 characters are in
    slot 7. *)
Definition verylong_saved : cache :=
  {| callsign_hashtable :=
       <[7 := {| ce_hash := 7; ce_callsign := "VERYLONGCAL" |}]>
         (replicate CALLSIGN_HASHTABLE_SIZE zero_entry);
     callsign_hashtable_size := 1 |}.

(** ** Definitions used to state further properties of the wrapper *)

Section wrapper_report.
Context {L : ft8_lib}.

(** Step 2d and 2e of the decode cycle in the words of the specification:
    unpack each message in turn, each on the callsign table the one before
    left, and make a record of what came out. *)
Fixpoint spec_report (d : ft8_decoder_t) (picks : list (ftx_candidate_t * ftx_message_t))
    (g : cache) : outcome (list ft8_decode_result_t * cache) :=
  match picks with
  | [] => Done ([], g)
  | (cand, message) :: rest =>
    match run_unpack (ftx_message_decode message) g with
    | Hang l => Hang l
    | Done (unpack_status, unpacked, g') =>
      match spec_report d rest g' with
      | Hang l => Hang l
      | Done (records, g'') =>
        Done (make_result d cand unpack_status unpacked :: records, g'')
      end
    end
  end.

End wrapper_report.

(** A candidate of the toy monitor that the search returns (score 15) and
    that does not decode (score below 20). *)
Definition toy_weak_cand : ftx_candidate_t :=
  {| score := 15; time_offset := 1; freq_offset := 1; time_sub := 0; freq_sub := 0 |}.

(** Three candidates: a message, the same message again, and a message that
    fails to unpack. *)
Definition three_candidates : list ftx_candidate_t :=
  [toy_cand 7 40; toy_cand 7 40; toy_cand 8 3].

(** * Properties *)

(** ** Linear probing *)

Section linear_probe_facts.
Context {A : Type}.
Variable N : nat.
Variables free hit : A → bool.
Hypothesis N_pos : 0 < N.

Local Abbreviation probe := (linear_probe N free hit).

Lemma probe_next_offset i k : ((i + 1) mod N + k) mod N = (i + S k) mod N.
Proof.
  rewrite Nat.Div0.add_mod_idemp_l. f_equal. lia.
Qed.

Lemma linear_probe_mono fuel fuel' t i r :
  probe fuel t i = Some r → fuel ≤ fuel' → probe fuel' t i = Some r.
Proof.
  revert fuel' i. induction fuel as [|fuel IH]; intros fuel' i Hp Hle; [done|].
  destruct fuel' as [|fuel']; [lia|]. simpl in *.
  destruct (t !! i) as [e|]; [|done].
  destruct (free e); [done|]. destruct (hit e); [done|].
  apply IH; [done|lia].
Qed.

(** Where the probe stops, what it finds there, and that every slot it went
    over before was occupied by something else. *)
Lemma linear_probe_sound fuel t i r :
  i < N →
  probe fuel t i = Some r →
  ∃ k, k < fuel ∧ stop_idx r = (i + k) mod N ∧ stops free hit t r
       ∧ ∀ k', k' < k → passed free hit t ((i + k') mod N).
Proof.
  revert i. induction fuel as [|fuel IH]; intros i Hi Hp; [done|]. simpl in Hp.
  destruct (t !! i) as [e|] eqn:He; [|done].
  destruct (free e) eqn:Hf.
  { inversion Hp; subst r. exists 0. rewrite Nat.add_0_r, Nat.mod_small by done.
    split_and!; [lia|done|by exists e|intros; lia]. }
  destruct (hit e) eqn:Hh.
  { inversion Hp; subst r. exists 0. rewrite Nat.add_0_r, Nat.mod_small by done.
    split_and!; [lia|done|by exists e|intros; lia]. }
  apply IH in Hp as (k & Hk & Hidx & Hstop & Hpass); [|by apply Nat.mod_upper_bound; lia].
  exists (S k). rewrite probe_next_offset in Hidx. split_and!; [lia|done|done|].
  intros [|k'] Hk'.
  - rewrite Nat.add_0_r, Nat.mod_small by done. by exists e.
  - rewrite <- probe_next_offset. apply Hpass. lia.
Qed.

Lemma linear_probe_complete k t i r :
  i < N →
  (∀ k', k' < k → passed free hit t ((i + k') mod N)) →
  stop_idx r = (i + k) mod N →
  stops free hit t r →
  probe (S k) t i = Some r.
Proof.
  revert i. induction k as [|k IH]; intros i Hi Hpass Hidx Hstop.
  - rewrite Nat.add_0_r, Nat.mod_small in Hidx by done. simpl.
    destruct r as [j|j]; simpl in Hidx, Hstop; subst j.
    + destruct Hstop as (e & -> & ->). done.
    + destruct Hstop as (e & -> & -> & ->). done.
  - destruct (Hpass 0) as (e & He & Hf & Hh); [lia|].
    rewrite Nat.add_0_r, Nat.mod_small in He by done.
    change (probe (S (S k)) t i) with
      (match t !! i with
       | None => None
       | Some e => if free e then Some (AtFree i)
                   else if hit e then Some (AtHit i)
                   else probe (S k) t ((i + 1) mod N)
       end).
    rewrite He, Hf, Hh. apply IH.
    + apply Nat.mod_upper_bound. lia.
    + intros k' Hk'. rewrite probe_next_offset. apply Hpass. lia.
    + by rewrite probe_next_offset.
    + done.
Qed.

Lemma linear_probe_total_offsets n t i :
  length t = N → i < N →
  (∃ k e, k < n ∧ t !! ((i + k) mod N) = Some e ∧ (free e = true ∨ hit e = true)) →
  is_Some (probe n t i).
Proof.
  intros Hlen. revert i. induction n as [|n IH]; intros i Hi (k & e & Hk & He & Hstop); [lia|].
  simpl. destruct (t !! i) as [e0|] eqn:He0.
  2:{ apply lookup_ge_None in He0. lia. }
  destruct (free e0) eqn:Hf; [by eexists|].
  destruct (hit e0) eqn:Hh; [by eexists|].
  destruct k as [|k].
  { rewrite Nat.add_0_r, Nat.mod_small in He by done.
    rewrite He0 in He. inversion He; subst e0. destruct Hstop; congruence. }
  apply IH; [apply Nat.mod_upper_bound; lia|].
  exists k, e. rewrite probe_next_offset. split_and!; [lia|done|done].
Qed.

(** A table with a free or matching slot: as much fuel as there are slots is
    enough. *)
Lemma linear_probe_total t i j e :
  length t = N → i < N →
  t !! j = Some e → free e = true ∨ hit e = true →
  is_Some (probe N t i).
Proof.
  intros Hlen Hi Hj Hstop.
  assert (j < N) as HjN by (apply lookup_lt_Some in Hj; lia).
  apply linear_probe_total_offsets; [done..|].
  exists ((j + N - i) mod N), e. split_and!; [apply Nat.mod_upper_bound; lia| |done].
  rewrite Nat.Div0.add_mod_idemp_r.
  replace (i + (j + N - i)) with (j + 1 * N) by lia.
  by rewrite Nat.Div0.mod_add, Nat.mod_small.
Qed.

(** A table whose every slot is occupied by something else: no amount of
    fuel lets the loop exit. *)
Lemma linear_probe_stuck t :
  (∀ j, j < N → passed free hit t j) →
  ∀ fuel i, i < N → probe fuel t i = None.
Proof.
  intros Hall fuel. induction fuel as [|fuel IH]; intros i Hi; [done|]. simpl.
  destruct (Hall i Hi) as (e & -> & -> & ->).
  apply IH. apply Nat.mod_upper_bound. lia.
Qed.

Lemma linear_probe_None_all_passed t i :
  length t = N → i < N → probe N t i = None →
  ∀ j, j < N → passed free hit t j.
Proof.
  intros Hlen Hi Hnone j Hj.
  destruct (t !! j) as [e|] eqn:He.
  2:{ apply lookup_ge_None in He. lia. }
  exists e. split; [done|].
  destruct (free e) eqn:Hf.
  { destruct (linear_probe_total t i j e) as [r Hr]; [done..|by left|congruence]. }
  destruct (hit e) eqn:Hh; [|done].
  destruct (linear_probe_total t i j e) as [r Hr]; [done..|by right|congruence].
Qed.

(** The reading of [None] at full fuel: the loop never exits. *)
Lemma linear_probe_None_forever t i :
  length t = N → i < N → probe N t i = None →
  ∀ fuel, probe fuel t i = None.
Proof.
  intros Hlen Hi Hnone fuel.
  apply linear_probe_stuck; [|done].
  by apply (linear_probe_None_all_passed t i).
Qed.

(** A matching entry at the end of a run of occupied slots is found: the
    probe reports a hit (there or earlier), never a free slot. *)
Lemma linear_probe_finds k t i e :
  i < N →
  t !! ((i + k) mod N) = Some e → free e = false → hit e = true →
  (∀ k', k' < k → ∃ e', t !! ((i + k') mod N) = Some e' ∧ free e' = false) →
  ∃ j, probe (S k) t i = Some (AtHit j).
Proof.
  revert i. induction k as [|k IH]; intros i Hi He Hf Hh Hocc.
  - rewrite Nat.add_0_r, Nat.mod_small in He by done. simpl.
    rewrite He, Hf, Hh. by eexists.
  - destruct (Hocc 0) as (e0 & He0 & Hf0); [lia|].
    rewrite Nat.add_0_r, Nat.mod_small in He0 by done.
    change (probe (S (S k)) t i) with
      (match t !! i with
       | None => None
       | Some e => if free e then Some (AtFree i)
                   else if hit e then Some (AtHit i)
                   else probe (S k) t ((i + 1) mod N)
       end).
    rewrite He0, Hf0. destruct (hit e0); [by eexists|].
    apply IH; [apply Nat.mod_upper_bound; lia|by rewrite probe_next_offset|done|done|].
    intros k' Hk'. rewrite probe_next_offset. apply Hocc. lia.
Qed.

End linear_probe_facts.

(** ** The callsign hash table: [hashtable_cleanup] *)

Lemma cleanup_slot_spec max_age g i e :
  callsign_hashtable g !! i = Some e →
  cleanup_slot max_age g i =
    {| callsign_hashtable := <[i := aged_entry max_age e]> (callsign_hashtable g);
       callsign_hashtable_size :=
         (callsign_hashtable_size g - (if evicted max_age e then 1 else 0))%Z |}.
Proof.
  intros He. unfold cleanup_slot, aged_entry, evicted. rewrite He.
  destruct g as [t sz]; cbn [callsign_hashtable callsign_hashtable_size] in *.
  destruct (occupied e); cbn [andb].
  - destruct (entry_age e >=? max_age)%Z; f_equal; lia.
  - f_equal; [by rewrite list_insert_id|lia].
Qed.

Lemma cleanup_prefix max_age g n :
  n ≤ length (callsign_hashtable g) →
  fold_left (cleanup_slot max_age) (seq 0 n) g =
    {| callsign_hashtable :=
         (aged_entry max_age <$> take n (callsign_hashtable g))
         ++ drop n (callsign_hashtable g);
       callsign_hashtable_size :=
         (callsign_hashtable_size g
          - Z.of_nat (count_if (evicted max_age) (take n (callsign_hashtable g))))%Z |}.
Proof.
  induction n as [|n IH]; intros Hn.
  { destruct g as [t sz]. cbn. rewrite ?take_0, ?drop_0. cbn. f_equal. lia. }
  rewrite seq_S, fold_left_app, IH by lia. simpl.
  destruct (lookup_lt_is_Some_2 (callsign_hashtable g) n) as [e He]; [lia|].
  erewrite cleanup_slot_spec; last first.
  { simpl. rewrite lookup_app_r; rewrite length_fmap, length_take_le by lia; [|done].
    rewrite Nat.sub_diag, lookup_drop, Nat.add_0_r. done. }
  simpl. f_equal.
  - rewrite (take_S_r _ _ _ He), fmap_app, <- app_assoc. simpl.
    rewrite insert_app_r_alt; rewrite length_fmap, length_take_le by lia; [|done].
    rewrite Nat.sub_diag, (drop_S _ _ _ He). done.
  - rewrite (take_S_r _ _ _ He).
    assert (∀ l1 l2 : list callsign_hashtable_entry_t,
      count_if (evicted max_age) (l1 ++ l2)
      = count_if (evicted max_age) l1 + count_if (evicted max_age) l2) as Happ.
    { induction l1; intros; simpl; [done|]. rewrite IHl1. lia. }
    rewrite Happ. simpl. destruct (evicted max_age e); lia.
Qed.

(** [hashtable_cleanup] treats every slot on its own. *)
Lemma hashtable_cleanup_spec max_age g :
  cache_wf g →
  hashtable_cleanup max_age g =
    {| callsign_hashtable := aged_entry max_age <$> callsign_hashtable g;
       callsign_hashtable_size :=
         (callsign_hashtable_size g
          - Z.of_nat (count_if (evicted max_age) (callsign_hashtable g)))%Z |}.
Proof.
  unfold cache_wf. intros Hwf. unfold hashtable_cleanup.
  rewrite cleanup_prefix by lia.
  rewrite <- Hwf, firstn_all, drop_all, app_nil_r. done.
Qed.

Lemma hashtable_cleanup_wf max_age g : cache_wf g → cache_wf (hashtable_cleanup max_age g).
Proof.
  intros Hwf. rewrite hashtable_cleanup_spec by done.
  unfold cache_wf. simpl. by rewrite length_fmap.
Qed.

Lemma cleanups_wf max_age n g : cache_wf g → cache_wf (cleanups max_age n g).
Proof.
  intros Hwf. induction n as [|n IH]; [done|]. simpl. by apply hashtable_cleanup_wf.
Qed.

Lemma hashtable_cleanup_lookup max_age g i :
  cache_wf g →
  callsign_hashtable (hashtable_cleanup max_age g) !! i
  = aged_entry max_age <$> callsign_hashtable g !! i.
Proof.
  intros Hwf. rewrite hashtable_cleanup_spec by done. simpl. apply list_lookup_fmap.
Qed.

Lemma id_mask_ones : 0x3FFFFF%Z = Z.ones 22.
Proof. reflexivity. Qed.

Lemma entry_id_mod e : entry_id e = (ce_hash e mod 2 ^ 22)%Z.
Proof. unfold entry_id. rewrite id_mask_ones, Z.land_ones by lia. done. Qed.

Lemma entry_age_bounds e : (0 ≤ entry_age e < 256)%Z.
Proof. unfold entry_age. apply Z.mod_pos_bound. lia. Qed.

(** The word [hashtable_cleanup] writes into a surviving slot: age [a] above
    the identity bits of [h]. *)
Lemma packed_age_id a h :
  (0 ≤ a ≤ 255)%Z →
  let w := Z.lor (wrap32 (Z.shiftl (wrap32 a) 24)) (Z.land h 0x3FFFFF) in
  (Z.shiftr w 24 mod 256 = a ∧ Z.land w 0x3FFFFF = Z.land h 0x3FFFFF)%Z.
Proof.
  intros Ha w. subst w. unfold wrap32.
  rewrite (Z.mod_small a) by lia.
  rewrite Z.shiftl_mul_pow2 by lia.
  rewrite (Z.mod_small (a * 2 ^ 24)) by lia.
  rewrite id_mask_ones, !Z.land_ones by lia.
  split.
  - rewrite Z.shiftr_lor, !Z.shiftr_div_pow2 by lia.
    rewrite Z.div_mul by lia.
    rewrite (Z.div_small (h mod 2 ^ 22)).
    2:{ pose proof (Z.mod_pos_bound h (2 ^ 22)). lia. }
    rewrite Z.lor_0_r. apply Z.mod_small. lia.
  - rewrite <- !Z.land_ones by lia. rewrite Z.land_lor_distr_l.
    rewrite !Z.land_ones by lia.
    replace (a * 2 ^ 24)%Z with (a * 4 * 2 ^ 22)%Z by lia.
    rewrite Z.mod_mul by lia. rewrite Z.mod_mod by lia. apply Z.lor_0_l.
Qed.

Lemma aged_entry_free max_age e : occupied e = false → aged_entry max_age e = e.
Proof. unfold aged_entry. by intros ->. Qed.

Lemma aged_entry_evicted max_age e :
  occupied e = true → (max_age ≤ entry_age e)%Z → aged_entry max_age e = zero_entry.
Proof.
  unfold aged_entry. intros -> Hage.
  destruct (Z.geb_spec (entry_age e) max_age); [done|lia].
Qed.

Lemma aged_entry_kept max_age e :
  (max_age ≤ 255)%Z →
  occupied e = true → (entry_age e < max_age)%Z →
  ce_callsign (aged_entry max_age e) = ce_callsign e
  ∧ entry_age (aged_entry max_age e) = (entry_age e + 1)%Z
  ∧ entry_id (aged_entry max_age e) = entry_id e.
Proof.
  unfold aged_entry. intros Hmax -> Hage.
  destruct (Z.geb_spec (entry_age e) max_age); [lia|].
  pose proof (entry_age_bounds e).
  destruct (packed_age_id (entry_age e + 1) (ce_hash e)) as [H1 H2]; [lia|].
  split_and!; [done|apply H1|apply H2].
Qed.

Lemma aged_entry_kept_occupied max_age e :
  occupied e = true → (entry_age e < max_age)%Z →
  occupied (aged_entry max_age e) = true.
Proof.
  unfold aged_entry. intros Hocc Hage. rewrite Hocc.
  destruct (Z.geb_spec (entry_age e) max_age); [lia|]. exact Hocc.
Qed.

Lemma cleanups_S max_age n g :
  cleanups max_age (S n) g = hashtable_cleanup max_age (cleanups max_age n g).
Proof. reflexivity. Qed.

(** An entry that is not saved again grows older by one per pass while its
    age stays below [max_age]... *)
Lemma cleanups_survive max_age g i e n :
  cache_wf g → (max_age ≤ 255)%Z →
  callsign_hashtable g !! i = Some e → occupied e = true →
  (entry_age e + Z.of_nat n ≤ max_age)%Z →
  ∃ e', callsign_hashtable (cleanups max_age n g) !! i = Some e'
        ∧ occupied e' = true
        ∧ ce_callsign e' = ce_callsign e
        ∧ entry_age e' = (entry_age e + Z.of_nat n)%Z
        ∧ entry_id e' = entry_id e.
Proof.
  intros Hwf Hmax He Hocc. induction n as [|n IH]; intros Hn.
  { exists e. split_and!; [done|done|done|lia|done]. }
  destruct IH as (e1 & He1 & Hocc1 & Hcs1 & Hage1 & Hid1); [lia|].
  exists (aged_entry max_age e1). rewrite cleanups_S.
  rewrite hashtable_cleanup_lookup by (by apply cleanups_wf). rewrite He1.
  destruct (aged_entry_kept max_age e1) as (Hcs & Hage & Hid); [lia|done|lia|].
  split_and!; [done| |congruence|lia|congruence].
  apply aged_entry_kept_occupied; [done|lia].
Qed.

(** ... and is cleared by the pass that finds it at age [max_age]. *)
Lemma cleanups_evict max_age g i e n :
  cache_wf g → (max_age ≤ 255)%Z →
  callsign_hashtable g !! i = Some e → occupied e = true →
  (entry_age e + Z.of_nat n = max_age)%Z →
  callsign_hashtable (cleanups max_age (S n) g) !! i = Some zero_entry.
Proof.
  intros Hwf Hmax He Hocc Hn.
  destruct (cleanups_survive max_age g i e n) as (e1 & He1 & Hocc1 & _ & Hage1 & _);
    [done|done|done|done|lia|].
  rewrite cleanups_S, hashtable_cleanup_lookup by (by apply cleanups_wf).
  rewrite He1. cbn [fmap option_fmap option_map]. f_equal.
  apply aged_entry_evicted; [done|lia].
Qed.

(** ** The callsign hash table: [hashtable_add] *)

Lemma probe_start_lt_256 (hash : Z) : Z.to_nat (hash mod 256) < CALLSIGN_HASHTABLE_SIZE.
Proof.
  unfold CALLSIGN_HASHTABLE_SIZE. pose proof (Z.mod_pos_bound hash 256). lia.
Qed.

Lemma size_256_pos : 0 < CALLSIGN_HASHTABLE_SIZE.
Proof. unfold CALLSIGN_HASHTABLE_SIZE. lia. Qed.

Lemma strncpy_short n s : String.length s ≤ n → strncpy n s = s.
Proof.
  revert n. induction s as [|c s IH]; intros [|n] Hlen; simpl in *; try done; try lia.
  f_equal. apply IH. lia.
Qed.

Lemma occupied_true e : occupied e = true ↔ ce_callsign e ≠ "".
Proof.
  unfold occupied. destruct (String.eqb_spec (ce_callsign e) ""); simpl; split; congruence.
Qed.

Lemma occupied_false e : occupied e = false ↔ ce_callsign e = "".
Proof.
  unfold occupied. destruct (String.eqb_spec (ce_callsign e) ""); simpl; split; congruence.
Qed.

Lemma slot_free_false e : slot_free e = false ↔ occupied e = true.
Proof. unfold slot_free. destruct (occupied e); simpl; split; congruence. Qed.

Lemma slot_free_true e : slot_free e = true ↔ occupied e = false.
Proof. unfold slot_free. destruct (occupied e); simpl; split; congruence. Qed.

Lemma add_match_true callsign hash e :
  add_match callsign hash e = true ↔ entry_id e = hash ∧ ce_callsign e = callsign.
Proof.
  unfold add_match, entry_id. rewrite andb_true_iff, Z.eqb_eq, String.eqb_eq. done.
Qed.

(** The two ways [hashtable_add] returns. *)
Lemma hashtable_add_Done callsign hash g g' :
  cache_wf g →
  hashtable_add callsign hash g = Done g' →
  ∃ i, i < CALLSIGN_HASHTABLE_SIZE ∧
    ((∃ e, callsign_hashtable g !! i = Some e ∧ occupied e = true
           ∧ entry_id e = hash ∧ ce_callsign e = callsign
           ∧ g' = {| callsign_hashtable :=
                       <[i := {| ce_hash := Z.land (ce_hash e) 0x3FFFFF;
                                 ce_callsign := ce_callsign e |}]> (callsign_hashtable g);
                     callsign_hashtable_size := callsign_hashtable_size g |})
     ∨ (∃ e, callsign_hashtable g !! i = Some e ∧ occupied e = false
           ∧ g' = {| callsign_hashtable :=
                       <[i := {| ce_hash := hash; ce_callsign := strncpy 11 callsign |}]>
                         (callsign_hashtable g);
                     callsign_hashtable_size := (callsign_hashtable_size g + 1)%Z |})).
Proof.
  intros Hwf. unfold hashtable_add, add_probe.
  destruct (linear_probe _ _ _ _ _ _) as [r|] eqn:Hp; [|done].
  apply linear_probe_sound in Hp as (k & _ & Hidx & Hstop & _);
    [|apply size_256_pos|apply probe_start_lt_256].
  assert (stop_idx r < CALLSIGN_HASHTABLE_SIZE) as Hlt.
  { rewrite Hidx. apply Nat.mod_upper_bound. unfold CALLSIGN_HASHTABLE_SIZE. lia. }
  destruct r as [i|i]; cbn [stop_idx stops] in *.
  - destruct Hstop as (e & He & Hf). intros [= <-]. exists i. split; [done|]. right.
    exists e. split_and!; [done|by apply slot_free_true|done].
  - destruct Hstop as (e & He & Hf & Hh). rewrite He. intros [= <-].
    exists i. split; [done|]. left. apply add_match_true in Hh as [Hid Hcs].
    exists e. split_and!; [done|by apply slot_free_false|done|done|done].
Qed.

Lemma hashtable_add_wf callsign hash g g' :
  cache_wf g → hashtable_add callsign hash g = Done g' → cache_wf g'.
Proof.
  intros Hwf Hadd.
  destruct (hashtable_add_Done _ _ _ _ Hwf Hadd)
    as (i & _ & [(e & _ & _ & _ & _ & ->)|(e & _ & _ & ->)]);
    unfold cache_wf in *; cbn [callsign_hashtable]; by rewrite length_insert.
Qed.

(** After a save the callsign sits in a slot with age 0. *)
Lemma hashtable_add_fresh callsign hash g g' :
  cache_wf g → (0 ≤ hash < 2 ^ 22)%Z →
  callsign ≠ "" → String.length callsign ≤ 11 →
  hashtable_add callsign hash g = Done g' →
  ∃ i e', callsign_hashtable g' !! i = Some e'
          ∧ occupied e' = true ∧ ce_callsign e' = callsign
          ∧ entry_id e' = hash ∧ entry_age e' = 0%Z.
Proof.
  intros Hwf Hh Hne Hlen Hadd.
  assert (Z.land hash 0x3FFFFF = hash) as Hland.
  { rewrite id_mask_ones, Z.land_ones by lia. apply Z.mod_small. lia. }
  assert ((Z.shiftr hash 24 mod 256)%Z = 0%Z) as Hshift.
  { rewrite Z.shiftr_div_pow2 by lia. rewrite Z.div_small by lia. done. }
  destruct (hashtable_add_Done _ _ _ _ Hwf Hadd)
    as (i & Hi & [(e & He & Hocc & Hid & Hcs & ->)|(e & He & Hocc & ->)]);
    exists i; eexists; cbn [callsign_hashtable];
    (split; [apply list_lookup_insert_eq; unfold cache_wf in Hwf; lia|]).
  - unfold entry_id in Hid. rewrite Hid.
    split_and!; [apply occupied_true; cbn; congruence|done|apply Hland|apply Hshift].
  - rewrite strncpy_short by done.
    split_and!; [by apply occupied_true|done|apply Hland|apply Hshift].
Qed.

(** ** Aging and eviction *)

(** C2, as the code has it.  One call of [hashtable_cleanup] with an 8-bit
    [max_age] clears every occupied slot whose age is at least [max_age]
    (empty callsign, zero hash, live count decremented) and adds one to the
    age of every other occupied slot, identity bits and callsign preserved;
    free slots are left alone.  Consequently an entry of age 0 that is not
    saved again is still there after [max_age] calls, with age [max_age], and
    is gone after [max_age + 1] calls; an entry saved again has age 0 right
    after the save and age 1 after the call of [hashtable_cleanup] that
    follows (for [max_age] at least 1). *)
Theorem cleanup_ages_then_evicts (max_age : Z) (g : cache) :
  cache_wf g → (max_age ≤ 255)%Z →
  (∀ i e, callsign_hashtable g !! i = Some e →
     ∃ e', callsign_hashtable (hashtable_cleanup max_age g) !! i = Some e'
       ∧ (occupied e = false → e' = e)
       ∧ (occupied e = true → (max_age ≤ entry_age e)%Z →
            ce_callsign e' = "" ∧ ce_hash e' = 0%Z)
       ∧ (occupied e = true → (entry_age e < max_age)%Z →
            ce_callsign e' = ce_callsign e
            ∧ entry_age e' = (entry_age e + 1)%Z
            ∧ entry_id e' = entry_id e))
  ∧ callsign_hashtable_size (hashtable_cleanup max_age g)
    = (callsign_hashtable_size g
       - Z.of_nat (count_if (evicted max_age) (callsign_hashtable g)))%Z
  ∧ (∀ i e, callsign_hashtable g !! i = Some e →
       occupied e = true → entry_age e = 0%Z → (0 ≤ max_age)%Z →
       (∃ e', callsign_hashtable (cleanups max_age (Z.to_nat max_age) g) !! i = Some e'
              ∧ ce_callsign e' = ce_callsign e
              ∧ entry_id e' = entry_id e
              ∧ entry_age e' = max_age)
       ∧ callsign_hashtable (cleanups max_age (S (Z.to_nat max_age)) g) !! i
         = Some zero_entry)
  ∧ (∀ callsign hash g1,
       (0 ≤ hash < 2 ^ 22)%Z → callsign ≠ "" → String.length callsign ≤ 11 →
       (1 ≤ max_age)%Z →
       hashtable_add callsign hash g = Done g1 →
       ∃ i e1 e2,
         callsign_hashtable g1 !! i = Some e1
         ∧ ce_callsign e1 = callsign ∧ entry_id e1 = hash ∧ entry_age e1 = 0%Z
         ∧ callsign_hashtable (hashtable_cleanup max_age g1) !! i = Some e2
         ∧ ce_callsign e2 = callsign ∧ entry_id e2 = hash ∧ entry_age e2 = 1%Z).
Proof.
  intros Hwf Hmax. split_and!.
  - intros i e He. exists (aged_entry max_age e).
    rewrite hashtable_cleanup_lookup, He by done. split_and!; [done|..].
    + apply aged_entry_free.
    + intros Hocc Hage. by rewrite aged_entry_evicted.
    + intros Hocc Hage. by apply aged_entry_kept.
  - by rewrite hashtable_cleanup_spec.
  - intros i e He Hocc Hage Hpos. split.
    + destruct (cleanups_survive max_age g i e (Z.to_nat max_age))
        as (e' & He' & _ & Hcs & Hage' & Hid); [done|done|done|done|lia|].
      exists e'. split_and!; [done|done|done|lia].
    + apply (cleanups_evict max_age g i e); [done|done|done|done|lia].
  - intros callsign hash g1 Hh Hne Hlen Hpos Hadd.
    destruct (hashtable_add_fresh _ _ _ _ Hwf Hh Hne Hlen Hadd)
      as (i & e1 & He1 & Hocc & Hcs & Hid & Hage).
    exists i, e1, (aged_entry max_age e1).
    rewrite hashtable_cleanup_lookup, He1 by (by eapply hashtable_add_wf).
    destruct (aged_entry_kept max_age e1) as (Hcs' & Hage' & Hid'); [done|done|lia|].
    split_and!; [done|done|done|done|done|congruence|congruence|lia].
Qed.

(** ** Termination of [hashtable_add] *)

Lemma hashtable_add_room callsign hash g :
  cache_wf g →
  (∃ j e, callsign_hashtable g !! j = Some e
          ∧ (occupied e = false ∨ add_match callsign hash e = true)) →
  ∃ g', hashtable_add callsign hash g = Done g'
        ∧ ∀ j e, callsign_hashtable g !! j = Some e →
                 occupied e = true → add_match callsign hash e = false →
                 callsign_hashtable g' !! j = Some e.
Proof.
  intros Hwf (j & e & He & Hstop).
  destruct (linear_probe_total CALLSIGN_HASHTABLE_SIZE slot_free (add_match callsign hash)
              size_256_pos (callsign_hashtable g) (Z.to_nat (hash mod 256)) j e)
    as [r Hr]; [done|apply probe_start_lt_256|done| |].
  { destruct Hstop as [Hocc|Hm]; [left; by apply slot_free_true|by right]. }
  assert (∃ g', hashtable_add callsign hash g = Done g') as [g' Hadd].
  { unfold hashtable_add, add_probe. rewrite Hr.
    destruct r as [i|i]; [by eexists|]. destruct (_ !! i); by eexists. }
  exists g'. split; [done|]. intros j' e' He' Hocc' Hm'.
  destruct (hashtable_add_Done _ _ _ _ Hwf Hadd)
    as (i & Hi & [(e0 & He0 & Hocc0 & Hid0 & Hcs0 & ->)|(e0 & He0 & Hocc0 & ->)]);
    cbn [callsign_hashtable]; rewrite list_lookup_insert_ne; try done.
  - intros ->. rewrite He0 in He'. inversion He'; subst e'.
    assert (add_match callsign hash e0 = true) by (by apply add_match_true). congruence.
  - intros ->. congruence.
Qed.

Lemma hashtable_add_full callsign hash g :
  cache_wf g →
  (∀ j e, callsign_hashtable g !! j = Some e →
          occupied e = true ∧ add_match callsign hash e = false) →
  hashtable_add callsign hash g = Hang LoopSave
  ∧ ∀ fuel, add_probe fuel (callsign_hashtable g) callsign hash = None.
Proof.
  intros Hwf Hfull.
  assert (∀ fuel, add_probe fuel (callsign_hashtable g) callsign hash = None) as Hnone.
  { intros fuel. unfold add_probe. apply linear_probe_stuck.
    - apply size_256_pos.
    - intros j Hj. destruct (lookup_lt_is_Some_2 (callsign_hashtable g) j) as [e He].
      { unfold cache_wf in Hwf. lia. }
      destruct (Hfull j e He) as [Hocc Hm]. exists e.
      split_and!; [done|by apply slot_free_false|done].
    - apply probe_start_lt_256. }
  split; [|done]. unfold hashtable_add. by rewrite Hnone.
Qed.

(** C5, as the code has it.  On a table with a free slot or a slot holding
    this hash and callsign, [hashtable_add] returns after at most 256 probes
    and leaves every other live entry as it was.  On a table whose 256 slots
    are all occupied by other entries the [while] loop has no exit: the call
    never returns, whatever the fuel. *)
Theorem hashtable_add_returns_unless_full (callsign : string) (hash : Z) (g : cache) :
  cache_wf g →
  ((∃ j e, callsign_hashtable g !! j = Some e
           ∧ (occupied e = false ∨ add_match callsign hash e = true)) →
   ∃ g', hashtable_add callsign hash g = Done g'
         ∧ ∀ j e, callsign_hashtable g !! j = Some e →
                  occupied e = true → add_match callsign hash e = false →
                  callsign_hashtable g' !! j = Some e)
  ∧ ((∀ j e, callsign_hashtable g !! j = Some e →
             occupied e = true ∧ add_match callsign hash e = false) →
     hashtable_add callsign hash g = Hang LoopSave
     ∧ ∀ fuel, add_probe fuel (callsign_hashtable g) callsign hash = None).
Proof.
  intros Hwf. split; [by apply hashtable_add_room|by apply hashtable_add_full].
Qed.

Lemma cache_wf_init : cache_wf hashtable_init.
Proof. reflexivity. Qed.

Lemma cleanup_ages_then_evicts_witness :
  cache_wf k1abc_saved ∧ (10 ≤ 255)%Z
  ∧ hashtable_add "K1ABC" 1234567 hashtable_init = Done k1abc_saved
  ∧ callsign_hashtable (cleanups 10 11 k1abc_saved) !! 135 = Some zero_entry.
Proof.
  split; [reflexivity|]. split; [lia|]. split; [vm_compute; reflexivity|].
  destruct (cleanup_ages_then_evicts 10 k1abc_saved) as (_ & _ & Hgone & _);
    [reflexivity|lia|].
  destruct (Hgone 135 {| ce_hash := 1234567; ce_callsign := "K1ABC" |}) as [_ H];
    [reflexivity|reflexivity|reflexivity|lia|].
  exact H.
Defined.

(** C2 as stated fails on the code: "K1ABC" is saved with hash 1234567 into
    the empty table (slot 135).  After the call of [hashtable_cleanup (10)]
    that ends the cycle its age is 1, not 0; and after ten calls in which it
    is not saved again it is still in its slot, with age 10. *)
Lemma saved_entry_age_after_cleanup :
  ∃ g, hashtable_add "K1ABC" 1234567 hashtable_init = Done g
    ∧ (∃ e, callsign_hashtable (hashtable_cleanup 10 g) !! 135 = Some e
            ∧ ce_callsign e = "K1ABC" ∧ entry_age e = 1%Z ∧ entry_age e ≠ 0%Z)
    ∧ (∃ e, callsign_hashtable (cleanups 10 10 g) !! 135 = Some e
            ∧ ce_callsign e = "K1ABC" ∧ occupied e = true ∧ entry_age e = 10%Z).
Proof.
  eexists. split; [vm_compute; reflexivity|]. split.
  - eexists. split; [vm_compute; reflexivity|]. by vm_compute.
  - eexists. split; [vm_compute; reflexivity|]. by vm_compute.
Qed.

Lemma hashtable_add_returns_unless_full_witness :
  cache_wf hashtable_init ∧ returns (hashtable_add "K1ABC" 1234567 hashtable_init).
Proof.
  split; [reflexivity|].
  destruct (hashtable_add_returns_unless_full "K1ABC" 1234567 hashtable_init cache_wf_init)
    as [Hroom _].
  destruct Hroom as (g' & Hg' & _).
  - exists 0, zero_entry. split; [reflexivity|left; reflexivity].
  - exists g'. exact Hg'.
Defined.

(** C5 as stated fails on the code: after 256 stations have been saved, one
    per slot, saving a 257th never returns. *)
Lemma save_on_full_table_spins :
  ∃ g, run_ops (OpInit :: fill_ops) hashtable_init = Done g
    ∧ count_if occupied (callsign_hashtable g) = 256
    ∧ hashtable_add "N0NEW" 77 g = Hang LoopSave
    ∧ ¬ ∃ fuel r, add_probe fuel (callsign_hashtable g) "N0NEW" 77 = Some r.
Proof.
  eexists. split; [vm_compute; reflexivity|].
  split; [vm_compute; reflexivity|].
  split; [vm_compute; reflexivity|].
  intros (fuel & r & Hr). unfold add_probe in Hr.
  rewrite linear_probe_None_forever in Hr; [done|apply size_256_pos|reflexivity| |].
  - apply probe_start_lt_256.
  - vm_compute. reflexivity.
Qed.

(** ** Graduated lookup *)

(** C1 on the code: "K1ABC" is saved with the 22-bit hash 1234567.  The
    lookup by the full hash finds it.  The lookups by the 12-bit hash
    (1234567 >> 10 = 1205) and by the 10-bit hash (1234567 >> 12 = 301) do
    not: the entry is in slot 1234567 % 256 = 135, and those lookups start
    probing at slots 1205 % 256 = 181 and 301 % 256 = 45, which are empty. *)
Theorem truncated_hash_lookup_misses :
  ∃ g, hashtable_add "K1ABC" 1234567 hashtable_init = Done g
    ∧ hashtable_lookup FTX_CALLSIGN_HASH_22 (Z.land (Z.shiftr 1234567 0) 0x3FFFFF) g
      = Done (true, "K1ABC")
    ∧ hashtable_lookup FTX_CALLSIGN_HASH_12 (Z.land (Z.shiftr 1234567 10) 0xFFF) g
      = Done (false, "")
    ∧ hashtable_lookup FTX_CALLSIGN_HASH_10 (Z.land (Z.shiftr 1234567 12) 0x3FF) g
      = Done (false, "").
Proof.
  eexists. split; [vm_compute; reflexivity|].
  split_and!; vm_compute; reflexivity.
Qed.

(** ** The table invariant *)

(** C9 on the code: with [two_station_ops] the slot of "SP1AAA" is cleared
    while "SP2BBB" lives in the next slot; the next save of "SP2BBB" stops at
    the cleared slot and stores the station a second time.  The table then
    holds the pair (256, "SP2BBB") in slot 0 and in slot 1. *)
Theorem eviction_then_save_duplicates_entry :
  ∃ g e0 e1, run_ops two_station_ops hashtable_init = Done g
    ∧ callsign_hashtable g !! 0 = Some e0
    ∧ callsign_hashtable g !! 1 = Some e1
    ∧ ce_callsign e0 = "SP2BBB" ∧ entry_id e0 = 256%Z
    ∧ ce_callsign e1 = "SP2BBB" ∧ entry_id e1 = 256%Z
    ∧ callsign_hashtable_size g = 2%Z.
Proof.
  do 3 eexists. split; [vm_compute; reflexivity|].
  split; [vm_compute; reflexivity|]. split; [vm_compute; reflexivity|].
  by vm_compute.
Qed.

(** ** Counting slots *)

Lemma count_if_app {A} (p : A → bool) (l1 l2 : list A) :
  count_if p (l1 ++ l2) = count_if p l1 + count_if p l2.
Proof. induction l1 as [|x l1 IH]; simpl; [done|]. rewrite IH. lia. Qed.

Lemma count_if_le_length {A} (p : A → bool) (l : list A) : count_if p l ≤ length l.
Proof. induction l as [|x l IH]; simpl; [done|]. destruct (p x); lia. Qed.

Lemma count_if_insert {A} (p : A → bool) (l : list A) i x y :
  l !! i = Some x →
  count_if p (<[i := y]> l) + (if p x then 1 else 0)
  = count_if p l + (if p y then 1 else 0).
Proof.
  revert i. induction l as [|z l IH]; intros [|i] Hx; simpl in *; try done.
  - inversion Hx; subst z. lia.
  - specialize (IH i Hx). lia.
Qed.

Lemma count_if_replicate_false {A} (p : A → bool) n x :
  p x = false → count_if p (replicate n x) = 0.
Proof. intros Hx. induction n as [|n IH]; simpl; [done|]. by rewrite Hx, IH. Qed.

(** A list that is not made of passing elements only has one that fails. *)
Lemma count_if_lt_length {A} (p : A → bool) (l : list A) :
  count_if p l < length l → ∃ j x, l !! j = Some x ∧ p x = false.
Proof.
  induction l as [|x l IH]; simpl; [lia|]. intros Hlt.
  destruct (p x) eqn:Hx.
  - destruct IH as (j & y & Hy & Hpy); [lia|]. by exists (S j), y.
  - by exists 0, x.
Qed.

(** ** The table of decoded messages *)

Lemma size_200_pos : 0 < DECODED_SIZE.
Proof. unfold DECODED_SIZE. lia. Qed.

Lemma probe_start_lt_200 (hash : Z) : Z.to_nat (hash mod 200) < DECODED_SIZE.
Proof. unfold DECODED_SIZE. pose proof (Z.mod_pos_bound hash 200). lia. Qed.

(** The test of the loop is equality of the two messages. *)
Lemma dedup_match_true message s :
  dedup_match message s = true
  ↔ ∃ m, s = Some m ∧ msg_hash m = msg_hash message
         ∧ msg_payload m = msg_payload message.
Proof.
  unfold dedup_match. destruct s as [m|].
  - rewrite andb_true_iff, Z.eqb_eq, bool_decide_eq_true. split.
    + intros [? ?]. by exists m.
    + intros (m' & [= <-] & ? & ?). done.
  - split; [done|]. by intros (m & ? & _).
Qed.

Lemma dedup_match_same message : dedup_match message (Some message) = true.
Proof. apply dedup_match_true. by exists message. Qed.

Lemma message_eq (m1 m2 : ftx_message_t) :
  msg_hash m1 = msg_hash m2 → msg_payload m1 = msg_payload m2 → m1 = m2.
Proof. destruct m1, m2; simpl. by intros -> ->. Qed.

Lemma dedup_probe_lt t message fuel r :
  dedup_probe fuel t message = Some r → stop_idx r < DECODED_SIZE.
Proof.
  unfold dedup_probe. intros Hp.
  apply linear_probe_sound in Hp as (k & _ & -> & _);
    [|apply size_200_pos|apply probe_start_lt_200].
  apply Nat.mod_upper_bound. unfold DECODED_SIZE. lia.
Qed.

Lemma dedup_probe_free t message fuel i :
  dedup_probe fuel t message = Some (AtFree i) → t !! i = Some None.
Proof.
  unfold dedup_probe. intros Hp.
  apply linear_probe_sound in Hp as (k & _ & _ & (s & Hs & Hf) & _);
    [|apply size_200_pos|apply probe_start_lt_200].
  destruct s; [done|]. done.
Qed.

Lemma dedup_probe_hit t message fuel i :
  dedup_probe fuel t message = Some (AtHit i) →
  ∃ m, t !! i = Some (Some m) ∧ msg_hash m = msg_hash message
       ∧ msg_payload m = msg_payload message.
Proof.
  unfold dedup_probe. intros Hp.
  apply linear_probe_sound in Hp as (k & _ & _ & (s & Hs & Hf & Hh) & _);
    [|apply size_200_pos|apply probe_start_lt_200].
  apply dedup_match_true in Hh as (m & -> & ? & ?). by exists m.
Qed.

Lemma dedup_reachable_length t ms : dedup_reachable t ms → length t = DECODED_SIZE.
Proof.
  induction 1 as [|t' ms' m i _ IH _]; [by rewrite length_replicate|].
  by rewrite length_insert.
Qed.

(** Every slot in use holds one of the messages stored... *)
Lemma dedup_reachable_slot t ms i m :
  dedup_reachable t ms → t !! i = Some (Some m) → m ∈ ms.
Proof.
  intros Hreach. revert i m.
  induction Hreach as [|t' ms' m' i' _ IH Hp]; intros i m Hi.
  { apply lookup_replicate in Hi as [? _]. done. }
  destruct (decide (i' = i)) as [->|Hne].
  - rewrite list_lookup_insert_eq in Hi.
    + inversion Hi; subst. apply list_elem_of_here.
    + apply dedup_probe_free in Hp. by apply lookup_lt_Some in Hp.
  - rewrite list_lookup_insert_ne in Hi by done. apply list_elem_of_further. by eapply IH.
Qed.

(** ... and every message stored reaches its slot from its home slot over
    slots in use only. *)
Lemma dedup_reachable_chain t ms m :
  dedup_reachable t ms → m ∈ ms →
  ∃ k, k < DECODED_SIZE
       ∧ t !! ((Z.to_nat (msg_hash m mod 200) + k) mod DECODED_SIZE) = Some (Some m)
       ∧ ∀ k', k' < k →
           ∃ s, t !! ((Z.to_nat (msg_hash m mod 200) + k') mod DECODED_SIZE) = Some s
                ∧ dedup_free s = false.
Proof.
  intros Hreach. revert m.
  induction Hreach as [|t' ms' m' i' Hr' IH Hp]; intros m Hm.
  { by apply elem_of_nil in Hm. }
  pose proof (dedup_probe_free _ _ _ _ Hp) as Hfree.
  assert (∀ j s, t' !! j = Some s → dedup_free s = false →
            ∃ s', <[i' := Some m']> t' !! j = Some s' ∧ dedup_free s' = false) as Hkeep.
  { intros j s Hs Hf. destruct (decide (i' = j)) as [->|Hne].
    - rewrite Hfree in Hs. inversion Hs; subst s. done.
    - exists s. by rewrite list_lookup_insert_ne. }
  apply elem_of_cons in Hm as [->|Hm].
  - unfold dedup_probe in Hp.
    apply linear_probe_sound in Hp as (k & Hk & Hidx & _ & Hpass);
      [|apply size_200_pos|apply probe_start_lt_200].
    cbn [stop_idx] in Hidx. exists k. split_and!; [done| |].
    + rewrite <- Hidx. apply list_lookup_insert_eq. by apply lookup_lt_Some in Hfree.
    + intros k' Hk'. destruct (Hpass k' Hk') as (s & Hs & Hf & _). by eapply Hkeep.
  - destruct (IH m Hm) as (k & Hk & Hs & Hocc). exists k. split_and!; [done| |].
    + rewrite list_lookup_insert_ne; [done|]. intros ->. congruence.
    + intros k' Hk'. destruct (Hocc k' Hk') as (s & Hs' & Hf). by eapply Hkeep.
Qed.

Lemma dedup_reachable_stored t ms m :
  dedup_reachable t ms → m ∈ ms → ∃ i, t !! i = Some (Some m).
Proof.
  intros Hreach Hm.
  destruct (dedup_reachable_chain t ms m Hreach Hm) as (k & _ & Hs & _). by eexists.
Qed.

Lemma dedup_reachable_count t ms :
  dedup_reachable t ms → count_if (λ s, negb (dedup_free s)) t = length ms.
Proof.
  induction 1 as [|t' ms' m' i' _ IH Hp].
  { by apply count_if_replicate_false. }
  pose proof (dedup_probe_free _ _ _ _ Hp) as Hfree.
  pose proof (count_if_insert (λ s, negb (dedup_free s)) t' i' None (Some m') Hfree) as Hc.
  simpl in *. lia.
Qed.

(** Fewer than 200 messages stored: there is a [NULL] slot. *)
Lemma dedup_reachable_room t ms :
  dedup_reachable t ms → length ms < DECODED_SIZE → ∃ j, t !! j = Some None.
Proof.
  intros Hreach Hlt.
  destruct (count_if_lt_length (λ s, negb (dedup_free s)) t) as (j & s & Hs & Hf).
  { rewrite (dedup_reachable_count t ms), (dedup_reachable_length t ms); done. }
  exists j. destruct s; [done|done].
Qed.

(** A message that was stored is found again, whatever was stored since. *)
Lemma dedup_reachable_finds t ms message :
  dedup_reachable t ms → message ∈ ms → found_duplicate t message.
Proof.
  intros Hreach Hm.
  destruct (dedup_reachable_chain t ms message Hreach Hm) as (k & Hk & Hs & Hocc).
  destruct (linear_probe_finds DECODED_SIZE dedup_free (dedup_match message) size_200_pos
              k t (Z.to_nat (msg_hash message mod 200)) (Some message)) as [j Hj].
  - apply probe_start_lt_200.
  - done.
  - done.
  - apply dedup_match_same.
  - done.
  - exists j. unfold dedup_probe.
    eapply linear_probe_mono; [apply size_200_pos|apply Hj|lia].
Qed.

(** A message equal to none of those stored finds a free slot while fewer
    than 200 are stored. *)
Lemma dedup_reachable_new t ms message :
  dedup_reachable t ms → length ms < DECODED_SIZE → message ∉ ms →
  found_empty_slot t message.
Proof.
  intros Hreach Hlt Hnew.
  destruct (dedup_reachable_room t ms Hreach Hlt) as [j Hj].
  destruct (linear_probe_total DECODED_SIZE dedup_free (dedup_match message) size_200_pos
              t (Z.to_nat (msg_hash message mod 200)) j None) as [r Hr].
  - by eapply dedup_reachable_length.
  - apply probe_start_lt_200.
  - done.
  - by left.
  - destruct r as [i|i]; [by exists i|].
    apply dedup_probe_hit in Hr as (m & Hm & Hh & Hp).
    rewrite (message_eq _ _ Hh Hp) in Hm.
    destruct Hnew. by eapply dedup_reachable_slot.
Qed.

(** ** The live count *)

Lemma aged_entry_count max_age e :
  (if occupied (aged_entry max_age e) then 1 else 0) + (if evicted max_age e then 1 else 0)
  = (if occupied e then 1 else 0).
Proof.
  unfold aged_entry, evicted. destruct (occupied e) eqn:Hocc; cbn [andb].
  - destruct (entry_age e >=? max_age)%Z; [done|].
    unfold occupied in *. cbn [ce_callsign]. by rewrite Hocc.
  - by rewrite Hocc.
Qed.

Lemma cleanup_count max_age t :
  count_if occupied (aged_entry max_age <$> t) + count_if (evicted max_age) t
  = count_if occupied t.
Proof.
  induction t as [|e t IH]; [done|]. cbn [fmap list_fmap count_if].
  pose proof (aged_entry_count max_age e). lia.
Qed.

Lemma strncpy_nonempty n callsign : callsign ≠ "" → strncpy (S n) callsign ≠ "".
Proof. by destruct callsign. Qed.

Lemma run_op_count_ok op g g' :
  cache_wf g → count_ok g → op_ok op → run_op op g = Done g' →
  cache_wf g' ∧ count_ok g'.
Proof.
  intros Hwf Hcount Hok Hrun. destruct op as [|callsign hash|max_age]; cbn [run_op] in Hrun.
  - inversion Hrun; subst g'. split; [apply cache_wf_init|]. reflexivity.
  - split; [by eapply hashtable_add_wf|]. unfold count_ok in *.
    destruct (hashtable_add_Done _ _ _ _ Hwf Hrun)
      as (i & Hi & [(e & He & Hocc & _ & _ & ->)|(e & He & Hocc & ->)]);
      cbn [callsign_hashtable callsign_hashtable_size].
    + pose proof (count_if_insert occupied (callsign_hashtable g) i e
                    {| ce_hash := Z.land (ce_hash e) 0x3FFFFF; ce_callsign := ce_callsign e |}
                    He) as Hc.
      assert (occupied {| ce_hash := Z.land (ce_hash e) 0x3FFFFF;
                          ce_callsign := ce_callsign e |} = true) as Hocc' by exact Hocc.
      rewrite Hocc, Hocc' in Hc. lia.
    + pose proof (count_if_insert occupied (callsign_hashtable g) i e
                    {| ce_hash := hash; ce_callsign := strncpy 11 callsign |} He) as Hc.
      assert (occupied {| ce_hash := hash; ce_callsign := strncpy 11 callsign |} = true)
        as Hocc'.
      { apply occupied_true. cbn [ce_callsign]. by apply strncpy_nonempty. }
      rewrite Hocc, Hocc' in Hc. lia.
  - assert (g' = hashtable_cleanup max_age g) as -> by congruence.
    split; [by apply hashtable_cleanup_wf|].
    unfold count_ok in *. rewrite hashtable_cleanup_spec by done.
    cbn [callsign_hashtable callsign_hashtable_size].
    pose proof (cleanup_count max_age (callsign_hashtable g)). lia.
Qed.

(** The second half of the table invariant: after any sequence of
    [hashtable_init], [hashtable_add] of non-empty callsigns and
    [hashtable_cleanup] that runs to its end, [callsign_hashtable_size] is
    the number of slots whose callsign is not empty. *)
Lemma live_count_invariant ops g g' :
  cache_wf g → count_ok g → Forall op_ok ops → run_ops ops g = Done g' →
  cache_wf g' ∧ count_ok g'.
Proof.
  intros Hwf Hcount Hok. revert g Hwf Hcount.
  induction Hok as [|op ops Hop _ IH]; intros g Hwf Hcount Hrun; cbn [run_ops] in Hrun.
  { inversion Hrun; by subst g'. }
  destruct (run_op op g) as [g1|l] eqn:Hop1; [|done].
  destruct (run_op_count_ok op g g1 Hwf Hcount Hop Hop1) as [Hwf1 Hcount1].
  by apply (IH g1).
Qed.

(** ** The round trip by the full hash *)

Lemma lookup_match_full hash e :
  lookup_match FTX_CALLSIGN_HASH_22 hash e = true ↔ entry_id e = Z.land hash 0x3FFFFF.
Proof.
  unfold lookup_match, entry_id. cbn [hash_shift hash_mask].
  rewrite Z.shiftr_0_r. apply Z.eqb_eq.
Qed.

(** X2.  The round trip by the full hash: a callsign of at most 11
    characters saved under a 22-bit hash that no entry of the table shares
    is returned by the lookup with the full hash right after the save. *)
Lemma lookup_full_finds_saved callsign hash g g' :
  cache_wf g → (0 ≤ hash < 2 ^ 22)%Z →
  callsign ≠ "" → String.length callsign ≤ 11 →
  (∀ j e, callsign_hashtable g !! j = Some e → occupied e = true → entry_id e ≠ hash) →
  hashtable_add callsign hash g = Done g' →
  hashtable_lookup FTX_CALLSIGN_HASH_22 hash g' = Done (true, callsign).
Proof.
  intros Hwf Hh Hne Hlen Hfresh Hadd.
  assert (Z.land hash 0x3FFFFF = hash) as Hland.
  { rewrite id_mask_ones, Z.land_ones by lia. apply Z.mod_small. lia. }
  unfold hashtable_add, add_probe in Hadd.
  destruct (linear_probe _ _ _ _ _ _) as [r|] eqn:Hp; [|done].
  apply linear_probe_sound in Hp as (k & Hk & Hidx & Hstop & Hpass);
    [|apply size_256_pos|apply probe_start_lt_256].
  destruct r as [i|i]; cbn [stop_idx stops] in *.
  2:{ destruct Hstop as (e & He & Hf & Hm). apply add_match_true in Hm as [Hid _].
      destruct (Hfresh i e He); [by apply slot_free_false|done]. }
  destruct Hstop as (e & He & Hf). inversion Hadd; subst g'. clear Hadd.
  set (new := {| ce_hash := hash; ce_callsign := strncpy 11 callsign |}).
  assert (linear_probe CALLSIGN_HASHTABLE_SIZE slot_free
            (lookup_match FTX_CALLSIGN_HASH_22 hash) (S k)
            (<[i := new]> (callsign_hashtable g)) (Z.to_nat (hash mod 256))
          = Some (AtHit i)) as Hfind.
  { apply linear_probe_complete; [apply size_256_pos|apply probe_start_lt_256| |done|].
    - intros k' Hk'. destruct (Hpass k' Hk') as (e' & He' & Hf' & _).
      exists e'. split_and!; [|done|].
      + rewrite list_lookup_insert_ne; [done|]. intros Heq. rewrite Heq in He. congruence.
      + destruct (lookup_match FTX_CALLSIGN_HASH_22 hash e') eqn:Hm; [|done].
        apply lookup_match_full in Hm. rewrite Hland in Hm.
        destruct (Hfresh _ e' He'); [by apply slot_free_false|done].
    - cbn [stops]. exists new. split_and!.
      + apply list_lookup_insert_eq. by apply lookup_lt_Some in He.
      + apply slot_free_false, occupied_true. subst new. cbn [ce_callsign].
        rewrite strncpy_short by done. done.
      + apply lookup_match_full. rewrite Hland. unfold entry_id. by subst new. }
  unfold hashtable_lookup, lookup_probe. cbn [callsign_hashtable].
  rewrite (linear_probe_mono _ _ _ size_256_pos _ _ _ _ _ Hfind)
    by (unfold CALLSIGN_HASHTABLE_SIZE in *; lia).
  rewrite list_lookup_insert_eq by (by apply lookup_lt_Some in He).
  change (Done (true, strncpy 11 callsign) = Done (true, callsign)).
  by rewrite strncpy_short.
Qed.

(** ** Calls of [hash_if] made by [ftx_message_decode] *)

Lemma hashtable_lookup_not_dedup hash_type hash g :
  hashtable_lookup hash_type hash g ≠ Hang LoopDedup.
Proof.
  unfold hashtable_lookup. destruct (lookup_probe _ _ _ _) as [[i|i]|]; try done.
  by destruct (_ !! i).
Qed.

Lemma hashtable_add_not_dedup callsign hash g :
  hashtable_add callsign hash g ≠ Hang LoopDedup.
Proof.
  unfold hashtable_add. destruct (add_probe _ _ _ _) as [[i|i]|]; try done.
  by destruct (_ !! i).
Qed.

Lemma run_unpack_not_dedup p g : run_unpack p g ≠ Hang LoopDedup.
Proof.
  revert g. induction p as [rc text|hash_type hash k IH|callsign hash k IH]; intros g; simpl.
  - done.
  - pose proof (hashtable_lookup_not_dedup hash_type hash g).
    destruct (hashtable_lookup hash_type hash g) as [[found cs]|l]; [apply IH|congruence].
  - pose proof (hashtable_add_not_dedup callsign hash g).
    destruct (hashtable_add callsign hash g) as [g'|l]; [apply IH|congruence].
Qed.

Lemma free_slots_pos g :
  0 < free_slots g → ∃ j e, callsign_hashtable g !! j = Some e ∧ slot_free e = true.
Proof.
  unfold free_slots. generalize (callsign_hashtable g) as t.
  induction t as [|x t IH]; simpl; [lia|]. intros Hpos.
  destruct (slot_free x) eqn:Hx.
  - by exists 0, x.
  - destruct IH as (j & e & He & Hf); [lia|]. by exists (S j), e.
Qed.

(** With a free slot in the table [hashtable_lookup] returns. *)
Lemma hashtable_lookup_returns hash_type hash g :
  cache_wf g → 0 < free_slots g → returns (hashtable_lookup hash_type hash g).
Proof.
  intros Hwf Hpos. destruct (free_slots_pos g Hpos) as (j & e & He & Hf).
  destruct (linear_probe_total CALLSIGN_HASHTABLE_SIZE slot_free (lookup_match hash_type hash)
              size_256_pos (callsign_hashtable g) (Z.to_nat (hash mod 256)) j e)
    as [r Hr]; [done|apply probe_start_lt_256|done|by left|].
  unfold hashtable_lookup, lookup_probe. rewrite Hr.
  destruct r as [i|i]; [by eexists|]. destruct (_ !! i); by eexists.
Qed.

(** With a free slot in the table [hashtable_add] returns, and it uses up at
    most one free slot. *)
Lemma hashtable_add_returns callsign hash g :
  cache_wf g → 0 < free_slots g →
  ∃ g', hashtable_add callsign hash g = Done g' ∧ cache_wf g'
        ∧ free_slots g ≤ free_slots g' + 1.
Proof.
  intros Hwf Hpos. destruct (free_slots_pos g Hpos) as (j & e & He & Hf).
  destruct (hashtable_add_room callsign hash g Hwf) as (g' & Hadd & _).
  { exists j, e. split; [done|]. left. by apply slot_free_true. }
  exists g'. split_and!; [done|by eapply hashtable_add_wf|].
  destruct (hashtable_add_Done _ _ _ _ Hwf Hadd)
    as (i & Hi & [(e0 & He0 & Hocc0 & _ & _ & ->)|(e0 & He0 & Hocc0 & ->)]);
    unfold free_slots; cbn [callsign_hashtable].
  - pose proof (count_if_insert slot_free (callsign_hashtable g) i e0
                  {| ce_hash := Z.land (ce_hash e0) 0x3FFFFF; ce_callsign := ce_callsign e0 |}
                  He0) as Hc.
    destruct (slot_free e0), (slot_free _); lia.
  - pose proof (count_if_insert slot_free (callsign_hashtable g) i e0
                  {| ce_hash := hash; ce_callsign := strncpy 11 callsign |} He0) as Hc.
    destruct (slot_free e0), (slot_free _); lia.
Qed.

(** A program that saves at most [n] callsigns runs to its end on a table
    with more than [n] free slots. *)
Lemma run_unpack_returns n p g :
  saves_le n p → cache_wf g → n < free_slots g →
  ∃ rc text g', run_unpack p g = Done (rc, text, g') ∧ cache_wf g'
                ∧ free_slots g ≤ free_slots g' + n.
Proof.
  intros Hs. revert g.
  induction Hs as [n rc text|n hash_type hash k _ IH|n callsign hash k _ IH];
    intros g Hwf Hfree; simpl.
  - exists rc, text, g. split_and!; [done|done|lia].
  - destruct (hashtable_lookup_returns hash_type hash g Hwf) as [[found cs] ->]; [lia|].
    by apply IH.
  - destruct (hashtable_add_returns callsign hash g Hwf) as (g1 & -> & Hwf1 & Hf1); [lia|].
    destruct (IH g1 Hwf1) as (rc & text & g' & Hrun & Hwf' & Hf'); [lia|].
    exists rc, text, g'. split_and!; [done|done|lia].
Qed.

(** ** The decode loop *)

Section wrapper_facts.
Context {L : ft8_lib}.

(** What one iteration does with a candidate. *)
Lemma decode_loop_cons d max_results cand rest st :
  decode_loop d max_results (cand :: rest) st =
  if (num_decoded st <? max_results)%Z then
    match ftx_decode_candidate (mon d) cand kLdpcIters with
    | None => decode_loop d max_results rest st
    | Some message =>
      match dedup_probe DECODED_SIZE (decoded_hashtable st) message with
      | None => Hang LoopDedup
      | Some (AtHit _) => decode_loop d max_results rest st
      | Some (AtFree idx_hash) =>
        match run_unpack (ftx_message_decode message) (st_cache st) with
        | Hang l => Hang l
        | Done (unpack_status, unpacked, g) =>
          decode_loop d max_results rest
            {| num_decoded := (num_decoded st + 1)%Z;
               out_buf := <[Z.to_nat (num_decoded st) :=
                            make_result d cand unpack_status unpacked]> (out_buf st);
               decoded_hashtable := <[idx_hash := Some message]> (decoded_hashtable st);
               st_cache := g |}
        end
      end
    end
  else Done st.
Proof. reflexivity. Qed.

(** The loop counts upwards, stops at [max_results], keeps the size of the
    caller's buffer and never rewrites a record it has written. *)
Lemma decode_loop_frame d max_results cl st st' :
  (0 ≤ num_decoded st)%Z →
  decode_loop d max_results cl st = Done st' →
  (num_decoded st ≤ num_decoded st')%Z
  ∧ (num_decoded st ≤ max_results → num_decoded st' ≤ max_results)%Z
  ∧ length (out_buf st') = length (out_buf st)
  ∧ ∀ j, j < Z.to_nat (num_decoded st) ∨ Z.to_nat (num_decoded st') ≤ j →
         out_buf st' !! j = out_buf st !! j.
Proof.
  revert st. induction cl as [|cand rest IH]; intros st Hpos Hrun.
  { inversion Hrun; subst st'. split_and!; [lia|done|done|done]. }
  rewrite decode_loop_cons in Hrun.
  destruct (Z.ltb_spec (num_decoded st) max_results) as [Hlt|Hge].
  2:{ inversion Hrun; subst st'. split_and!; [lia|done|done|done]. }
  destruct (ftx_decode_candidate _ _ _) as [message|]; [|by apply IH].
  destruct (dedup_probe _ _ _) as [[idx|idx]|]; [|by apply IH|done].
  destruct (run_unpack _ _) as [[[rc unpacked] g]|l]; [|done].
  apply IH in Hrun as (Hle & Hmax & Hlen & Hout); cbn [num_decoded] in *; [|lia].
  cbn [out_buf] in *. rewrite length_insert in Hlen.
  split_and!; [lia|lia|done|].
  intros j Hj. rewrite Hout by lia. apply list_lookup_insert_ne. lia.
Qed.

(** The loop against the specification's list of unique decodes: it writes
    one record for each of the first [max_results - num_decoded] of them,
    in order. *)
Lemma decode_loop_Done d max_results cl st ms st' :
  dedup_reachable (decoded_hashtable st) ms →
  (0 ≤ num_decoded st)%Z →
  decode_loop d max_results cl st = Done st' →
  let picked := take (Z.to_nat (max_results - num_decoded st))
                  (spec_unique_decoded d ms cl) in
  num_decoded st' = (num_decoded st + Z.of_nat (length picked))%Z
  ∧ ∀ k c m, picked !! k = Some (c, m) →
      Z.to_nat (num_decoded st) + k < length (out_buf st) →
      ∃ rc unpacked,
        out_buf st' !! (Z.to_nat (num_decoded st) + k) = Some (make_result d c rc unpacked).
Proof.
  revert st ms. induction cl as [|cand rest IH]; intros st ms Hreach Hpos Hrun picked.
  { inversion Hrun; subst st'. subst picked. cbn [spec_unique_decoded].
    rewrite take_nil. split; [simpl; lia|]. intros k c m Hk. by rewrite lookup_nil in Hk. }
  rewrite decode_loop_cons in Hrun.
  destruct (Z.ltb_spec (num_decoded st) max_results) as [Hlt|Hge].
  2:{ inversion Hrun; subst st'. subst picked.
      replace (Z.to_nat (max_results - num_decoded st)) with 0 by lia.
      rewrite take_0. split; [simpl; lia|]. intros k c m Hk. by rewrite lookup_nil in Hk. }
  subst picked. cbn [spec_unique_decoded].
  destruct (ftx_decode_candidate _ _ _) as [message|]; [|by apply IH].
  destruct (dedup_probe _ _ _) as [[idx|idx]|] eqn:Hprobe; [| |done].
  - (* a free slot: the message was not seen before *)
    destruct (decide (message ∈ ms)) as [Hin|Hnotin].
    { destruct (dedup_reachable_finds _ _ _ Hreach Hin) as [i Hi]. congruence. }
    destruct (run_unpack _ _) as [[[rc unpacked] g]|l]; [|done].
    pose proof Hrun as Hframe.
    apply decode_loop_frame in Hframe as (Hle & _ & Hlen & Hout);
      [|cbn [num_decoded]; lia].
    apply (IH _ (message :: ms)) in Hrun as [Hnum Hres];
      [|by apply dedup_store|cbn [num_decoded]; lia].
    cbn [num_decoded out_buf decoded_hashtable] in *. rewrite length_insert in Hlen, Hres.
    replace (Z.to_nat (max_results - num_decoded st))
      with (S (Z.to_nat (max_results - (num_decoded st + 1)))) by lia.
    rewrite firstn_cons. split; [rewrite Hnum; simpl; lia|].
    intros [|k] c m Hk Hlt'.
    + inversion Hk; subst c m. exists rc, unpacked.
      rewrite Nat.add_0_r in *. rewrite Hout by lia.
      by apply list_lookup_insert_eq.
    + destruct (Hres k c m Hk) as (rc' & unpacked' & Hr); [lia|].
      exists rc', unpacked'. rewrite <- Hr. f_equal. lia.
  - (* a duplicate: the message was seen before *)
    destruct (decide (message ∈ ms)) as [Hin|Hnotin]; [by apply IH|].
    apply dedup_probe_hit in Hprobe as (m' & Hm' & Hh & Hp).
    rewrite (message_eq _ _ Hh Hp) in Hm'.
    destruct Hnotin. by eapply dedup_reachable_slot.
Qed.

(** Within [ft8_decoder_decode] the [do .. while] loop always exits: with at
    most 200 candidates the table has a [NULL] slot whenever it is probed. *)
Lemma decode_loop_not_dedup d max_results cl st ms :
  dedup_reachable (decoded_hashtable st) ms →
  length ms + length cl ≤ DECODED_SIZE →
  decode_loop d max_results cl st ≠ Hang LoopDedup.
Proof.
  revert st ms. induction cl as [|cand rest IH]; intros st ms Hreach Hlen; [done|].
  rewrite decode_loop_cons. cbn [length] in Hlen.
  destruct (num_decoded st <? max_results)%Z; [|done].
  destruct (ftx_decode_candidate _ _ _) as [message|]; [|apply (IH _ ms); [done|lia]].
  destruct (dedup_probe _ _ _) as [[idx|idx]|] eqn:Hprobe.
  - pose proof (run_unpack_not_dedup (ftx_message_decode message) (st_cache st)).
    destruct (run_unpack _ _) as [[[rc unpacked] g]|l]; [|congruence].
    apply (IH _ (message :: ms)); [by apply dedup_store|cbn [length]; lia].
  - apply (IH _ ms); [done|lia].
  - exfalso.
    destruct (dedup_reachable_room _ _ Hreach) as [j Hj]; [lia|].
    destruct (linear_probe_total DECODED_SIZE dedup_free (dedup_match message) size_200_pos
                (decoded_hashtable st) (Z.to_nat (msg_hash message mod 200)) j None)
      as [r Hr]; [by eapply dedup_reachable_length|apply probe_start_lt_200|done|by left|].
    unfold dedup_probe in Hprobe. congruence.
Qed.

(** The loop runs to its end when the callsign table has room for the
    callsigns the messages can save: at most [b] each. *)
Lemma decode_loop_returns d max_results cl b st ms :
  dedup_reachable (decoded_hashtable st) ms →
  length ms + length cl ≤ DECODED_SIZE →
  cache_wf (st_cache st) →
  (∀ c m, c ∈ cl → ftx_decode_candidate (mon d) c kLdpcIters = Some m →
          saves_le b (ftx_message_decode m)) →
  b * length cl < free_slots (st_cache st) →
  returns (decode_loop d max_results cl st).
Proof.
  revert st ms. induction cl as [|cand rest IH]; intros st ms Hreach Hlen Hwf Hb Hfree.
  { by exists st. }
  rewrite decode_loop_cons. cbn [length] in Hlen, Hfree.
  assert (∀ c m, c ∈ rest → ftx_decode_candidate (mon d) c kLdpcIters = Some m →
            saves_le b (ftx_message_decode m)) as Hb'.
  { intros c m Hc. apply Hb. by apply list_elem_of_further. }
  destruct (num_decoded st <? max_results)%Z; [|by exists st].
  destruct (ftx_decode_candidate _ _ _) as [message|] eqn:Hdec;
    [|apply (IH _ ms); [done|lia|done|done|lia]].
  destruct (dedup_probe _ _ _) as [[idx|idx]|] eqn:Hprobe.
  - destruct (run_unpack_returns b (ftx_message_decode message) (st_cache st))
      as (rc & unpacked & g & -> & Hwf' & Hfree'); [|done|lia|].
    { eapply Hb; [apply list_elem_of_here|done]. }
    apply (IH _ (message :: ms)); cbn [decoded_hashtable st_cache length];
      [by apply dedup_store|lia|done|done|lia].
  - apply (IH _ ms); [done|lia|done|done|lia].
  - exfalso.
    apply (decode_loop_not_dedup d (num_decoded st + 1) [cand] st ms Hreach);
      [cbn [length]; lia|].
    rewrite decode_loop_cons, Hdec, Hprobe.
    destruct (Z.ltb_spec (num_decoded st) (num_decoded st + 1)); [done|lia].
Qed.

(** The table of the loop is always one of the tables of [dedup_reachable],
    with at most one message stored for each candidate looked at. *)
Lemma decode_loop_reachable d max_results cl st ms st' :
  dedup_reachable (decoded_hashtable st) ms →
  decode_loop d max_results cl st = Done st' →
  ∃ ms', dedup_reachable (decoded_hashtable st') ms'
         ∧ length ms' ≤ length ms + length cl.
Proof.
  revert st ms. induction cl as [|cand rest IH]; intros st ms Hreach Hrun.
  { inversion Hrun; subst st'. exists ms. split; [done|lia]. }
  rewrite decode_loop_cons in Hrun. cbn [length].
  destruct (num_decoded st <? max_results)%Z.
  2:{ inversion Hrun; subst st'. exists ms. split; [done|lia]. }
  destruct (ftx_decode_candidate _ _ _) as [message|].
  2:{ destruct (IH st ms Hreach Hrun) as (ms' & ? & ?). exists ms'. split; [done|lia]. }
  destruct (dedup_probe _ _ _) as [[idx|idx]|] eqn:Hprobe; [| |done].
  - destruct (run_unpack _ _) as [[[rc unpacked] g]|l]; [|done].
    apply (IH _ (message :: ms)) in Hrun as (ms' & ? & Hlen); [|by apply dedup_store].
    exists ms'. split; [done|]. cbn [length] in Hlen. lia.
  - destruct (IH st ms Hreach Hrun) as (ms' & ? & ?). exists ms'. split; [done|lia].
Qed.

(** A valid call runs the loop from the cleared table and then ages the
    callsign table. *)
Lemma ft8_decoder_decode_valid d o max_results g :
  (0 < max_results)%Z →
  ft8_decoder_decode (Some d) (Some o) max_results g =
  match decode_loop d max_results (ftx_find_candidates (mon d) kMaxCandidates kMinScore)
          {| num_decoded := 0; out_buf := o;
             decoded_hashtable := replicate DECODED_SIZE None; st_cache := g |} with
  | Done st => Done {| ret := num_decoded st; dec_after := Some d;
                       out_after := Some (out_buf st);
                       cache_after := hashtable_cleanup 10 (st_cache st) |}
  | Hang l => Hang l
  end.
Proof.
  intros Hpos. unfold ft8_decoder_decode.
  destruct (Z.leb_spec max_results 0); [lia|]. reflexivity.
Qed.

(** ** Unpack failures *)

Lemma strncpy_app n a b :
  String.length a ≤ n → strncpy n (a +:+ b) = a +:+ strncpy (n - String.length a) b.
Proof.
  revert n. induction a as [|c a IH]; intros n Hn; simpl in *.
  - by rewrite Nat.sub_0_r.
  - destruct n as [|n]; [lia|]. simpl. rewrite IH by lia. reflexivity.
Qed.

Lemma strncpy_idem n s : strncpy n (strncpy n s) = strncpy n s.
Proof.
  revert s. induction n as [|n IH]; intros [|c s]; simpl; try done. by rewrite IH.
Qed.

(** The text of the record written for a message whose unpacking failed. *)
Lemma make_result_error d cand rc unpacked :
  rc ≠ FTX_MESSAGE_RC_OK →
  7 + String.length (pretty rc) < FTX_MAX_MESSAGE_LENGTH →
  text (make_result d cand rc unpacked)
  = "Error [" +:+ pretty rc
    +:+ strncpy (FTX_MAX_MESSAGE_LENGTH - 8 - String.length (pretty rc))
          "] while unpacking!".
Proof.
  intros Hrc Hlen. unfold make_result. cbn [text].
  rewrite bool_decide_eq_true_2 by done. unfold snprintf_error.
  rewrite strncpy_idem.
  rewrite (strncpy_app _ "Error [") by (simpl; lia).
  rewrite strncpy_app by (simpl; lia).
  do 3 f_equal. simpl. lia.
Qed.

(** C7.  An iteration of the loop whose candidate decodes to a message that
    finds a free slot in the table (a unique message) and whose unpacking
    fails with code [rc] writes a record into the next slot of the buffer.
    Its text is "Error [rc] while unpacking!", cut to the size of the text
    field, and contains the decimal code [rc] when the field has room for
    it; the record is counted: the count returned is larger than before and
    at most [max_results]. *)
Theorem unpack_failure_is_reported
    (d : ft8_decoder_t) (max_results : Z) (cand : ftx_candidate_t)
    (rest : list ftx_candidate_t) (st st' : decode_state) (message : ftx_message_t)
    (idx_hash : nat) (rc : Z) (unpacked : string) (g : cache) :
  (0 ≤ num_decoded st < max_results)%Z →
  Z.to_nat (num_decoded st) < length (out_buf st) →
  ftx_decode_candidate (mon d) cand kLdpcIters = Some message →
  dedup_probe DECODED_SIZE (decoded_hashtable st) message = Some (AtFree idx_hash) →
  run_unpack (ftx_message_decode message) (st_cache st) = Done (rc, unpacked, g) →
  rc ≠ FTX_MESSAGE_RC_OK →
  7 + String.length (pretty rc) < FTX_MAX_MESSAGE_LENGTH →
  decode_loop d max_results (cand :: rest) st = Done st' →
  (num_decoded st < num_decoded st' ≤ max_results)%Z
  ∧ ∃ r, out_buf st' !! Z.to_nat (num_decoded st) = Some r
         ∧ text r = "Error [" +:+ pretty rc
                    +:+ strncpy (FTX_MAX_MESSAGE_LENGTH - 8 - String.length (pretty rc))
                          "] while unpacking!"
         ∧ contains (pretty rc) (text r)
         ∧ snr_db r = float_mul (float_of_int (score cand)) float_half.
Proof.
  intros Hnum Hroom Hdec Hprobe Hunpack Hrc Hlen Hrun.
  rewrite decode_loop_cons, Hdec, Hprobe, Hunpack in Hrun.
  destruct (Z.ltb_spec (num_decoded st) max_results) as [_|?]; [|lia].
  apply decode_loop_frame in Hrun as (Hle & Hmax & _ & Hout); cbn [num_decoded] in *; [|lia].
  split; [lia|].
  exists (make_result d cand rc unpacked). split_and!.
  - rewrite Hout by lia. cbn [out_buf]. by apply list_lookup_insert_eq.
  - by apply make_result_error.
  - rewrite make_result_error by done. by eexists _, _.
  - reflexivity.
Qed.

(** ** The defensive no-op *)

(** C8.  Called with a null decoder, a null buffer or a [max_results] that is
    not positive, [ft8_decoder_decode] returns 0 and changes nothing: the
    decoder, the buffer and the callsign table (contents, ages and live
    count) are what they were. *)
Theorem decode_defensive_noop
    (dec : option ft8_decoder_t) (out : option (list ft8_decode_result_t))
    (max_results : Z) (g : cache) :
  dec = None ∨ out = None ∨ (max_results ≤ 0)%Z →
  ft8_decoder_decode dec out max_results g
  = Done {| ret := 0; dec_after := dec; out_after := out; cache_after := g |}.
Proof.
  intros Hbad. unfold ft8_decoder_decode.
  destruct dec as [d|], out as [o|]; try done.
  destruct (Z.leb_spec max_results 0); [done|].
  destruct Hbad as [?|[?|?]]; [done|done|lia].
Qed.

(** ** Reset and creation *)

(** C10.  [ft8_decoder_reset] leaves the callsign table as it is, slots and
    live count, and only resets the monitor of the decoder.  The table is
    the one file-scope table: every successful [ft8_decoder_create] puts it
    back to [hashtable_init], all slots free and the count 0, whatever was
    in it; a failed allocation leaves it alone. *)
Theorem reset_keeps_cache_create_clears_it
    (dec : option ft8_decoder_t) (sample_rate : Z) (f_min f_max : float)
    (time_osr freq_osr : Z) (g : cache) :
  (ft8_decoder_reset dec g).2 = g
  ∧ (ft8_decoder_reset dec g).1
    = (λ d, {| mon := monitor_reset (mon d); cfg := cfg d |}) <$> dec
  ∧ (∃ d, ft8_decoder_create true sample_rate f_min f_max time_osr freq_osr g
          = (Some d, hashtable_init))
  ∧ ft8_decoder_create false sample_rate f_min f_max time_osr freq_osr g = (None, g)
  ∧ callsign_hashtable_size hashtable_init = 0%Z
  ∧ length (callsign_hashtable hashtable_init) = CALLSIGN_HASHTABLE_SIZE
  ∧ ∀ i e, callsign_hashtable hashtable_init !! i = Some e →
           ce_callsign e = "" ∧ ce_hash e = 0%Z.
Proof.
  split_and!.
  - by destruct dec.
  - by destruct dec.
  - by eexists.
  - done.
  - done.
  - done.
  - intros i e He. apply lookup_replicate in He as [-> _]. done.
Qed.

End wrapper_facts.

(** ** The properties on concrete runs of the toy instance *)

Lemma toy_unpack_saves message : saves_le 1 (toy_unpack message).
Proof.
  unfold toy_unpack. destruct (msg_payload message) as [|b ?]; [constructor|].
  destruct (b =? 3)%Z; constructor. constructor. intros. constructor.
Qed.

(** One cycle: a message, the same message again (dropped), a message that
    fails to unpack, and a message with the hash of the first but another
    payload (kept). *)
Example toy_cycle :
  match @ft8_decoder_decode toy_lib
          (Some (toy_decoder [toy_cand 7 40; toy_cand 7 40; toy_cand 8 3; toy_cand 7 41]))
          (Some (replicate 4 toy_blank)) 4 hashtable_init with
  | Done r =>
    Some (ret r,
          match out_after r with Some o => map (@text toy_lib) o | None => [] end,
          callsign_hashtable_size (cache_after r))
  | Hang _ => None
  end
  = Some (3%Z, ["CQ K40"; "Error [3] while unpacking!"; "CQ K40"; ""], 2%Z).
Proof. vm_compute. reflexivity. Qed.

(** A message that fails to unpack with code 3: the record reads
    "Error [3] while unpacking!". *)
Lemma unpack_failure_is_reported_witness :
  ∃ st', @decode_loop toy_lib (toy_decoder [toy_cand 8 3]) 1 [toy_cand 8 3]
           (toy_start [toy_blank]) = Done st'
    ∧ num_decoded st' = 1%Z
    ∧ ∃ r, out_buf st' !! 0 = Some r ∧ text r = "Error [3] while unpacking!".
Proof.
  destruct (@decode_loop_returns toy_lib (toy_decoder [toy_cand 8 3]) 1 [toy_cand 8 3] 1
              (toy_start [toy_blank]) []) as [st' Hrun].
  { apply dedup_start. }
  { simpl. unfold DECODED_SIZE. lia. }
  { reflexivity. }
  { intros c m _ _. apply toy_unpack_saves. }
  { vm_compute. lia. }
  exists st'. split; [exact Hrun|].
  destruct (@unpack_failure_is_reported toy_lib (toy_decoder [toy_cand 8 3]) 1
              (toy_cand 8 3) [] (toy_start [toy_blank]) st'
              {| msg_payload := payload_of_byte 3; msg_hash := 8 |}
              8 3 "" hashtable_init) as (Hcount & r & Hr & Htext & _);
    [simpl; lia|simpl; lia|reflexivity|reflexivity|reflexivity|done|simpl; lia|exact Hrun|].
  simpl in Hcount. split; [lia|].
  exists r. split; [exact Hr|]. rewrite Htext. reflexivity.
Defined.

Lemma decode_defensive_noop_witness :
  (Some (toy_decoder fifty_candidates) = None
   ∨ Some (replicate 12 toy_blank) = None ∨ (0 ≤ 0)%Z)
  ∧ @ft8_decoder_decode toy_lib (Some (toy_decoder fifty_candidates))
      (Some (replicate 12 toy_blank)) 0 hashtable_init
    = Done {| ret := 0; dec_after := Some (toy_decoder fifty_candidates);
              out_after := Some (replicate 12 toy_blank);
              cache_after := hashtable_init |}.
Proof.
  split; [right; right; lia|].
  apply (@decode_defensive_noop toy_lib). right. right. lia.
Defined.

(** * Further properties of the callsign hash table *)

Lemma land_id_mask_small hash : (0 ≤ hash < 2 ^ 22)%Z → Z.land hash 0x3FFFFF = hash.
Proof. intros Hh. rewrite id_mask_ones, Z.land_ones by lia. apply Z.mod_small. lia. Qed.

Lemma land_id_mask_idem h : Z.land (Z.land h 0x3FFFFF) 0x3FFFFF = Z.land h 0x3FFFFF.
Proof. rewrite <- Z.land_assoc, Z.land_diag. done. Qed.

(** The word written into a surviving slot, as a sum. *)
Lemma packed_word_sum a h :
  (0 ≤ a ≤ 255)%Z →
  Z.lor (wrap32 (Z.shiftl (wrap32 a) 24)) (Z.land h 0x3FFFFF)
  = (a * 2 ^ 24 + h mod 2 ^ 22)%Z.
Proof.
  intros Ha. unfold wrap32.
  rewrite (Z.mod_small a) by lia.
  rewrite Z.shiftl_mul_pow2 by lia.
  rewrite (Z.mod_small (a * 2 ^ 24)) by lia.
  rewrite id_mask_ones, Z.land_ones by lia.
  pose proof (Z.mod_pos_bound h (2 ^ 22)) as Hb.
  rewrite <- Z.lxor_lor, <- Z.add_nocarry_lxor; [done| |].
  - rewrite <- (Z.mod_small (h mod 2 ^ 22) (2 ^ 24)) by lia.
    rewrite <- Z.land_ones by lia.
    rewrite Z.land_assoc. rewrite <- Z.shiftl_mul_pow2 by lia.
    replace (Z.land (Z.shiftl a 24) (h mod 2 ^ 22))
      with (Z.land (h mod 2 ^ 22) (Z.shiftl a 24)) by apply Z.land_comm.
    rewrite <- Z.land_assoc.
    replace (Z.land (Z.shiftl a 24) (Z.ones 24)) with 0%Z; [apply Z.land_0_r|].
    rewrite Z.land_ones, Z.shiftl_mul_pow2 by lia. by rewrite Z.mod_mul by lia.
  - rewrite <- (Z.mod_small (h mod 2 ^ 22) (2 ^ 24)) by lia.
    rewrite <- Z.land_ones by lia.
    rewrite Z.land_assoc. rewrite <- Z.shiftl_mul_pow2 by lia.
    replace (Z.land (Z.shiftl a 24) (h mod 2 ^ 22))
      with (Z.land (h mod 2 ^ 22) (Z.shiftl a 24)) by apply Z.land_comm.
    rewrite <- Z.land_assoc.
    replace (Z.land (Z.shiftl a 24) (Z.ones 24)) with 0%Z; [apply Z.land_0_r|].
    rewrite Z.land_ones, Z.shiftl_mul_pow2 by lia. by rewrite Z.mod_mul by lia.
Qed.

Lemma strncpy_length n s : String.length (strncpy n s) ≤ n.
Proof.
  revert s. induction n as [|n IH]; intros [|c s]; simpl; try lia.
  specialize (IH s). lia.
Qed.

Lemma entry_ok_zero : entry_ok zero_entry.
Proof. split; [simpl; lia|]. split; [simpl; lia|done]. Qed.

Lemma aged_entry_ok max_age e :
  (max_age ≤ 255)%Z → entry_ok e → entry_ok (aged_entry max_age e).
Proof.
  intros Hmax Hok. pose proof Hok as (Hlen & Hh & Hfree). unfold aged_entry.
  destruct (occupied e) eqn:Hocc; [|exact Hok].
  destruct (Z.geb_spec (entry_age e) max_age); [apply entry_ok_zero|].
  pose proof (entry_age_bounds e).
  split; [|split]; cbn [ce_callsign ce_hash].
  - done.
  - rewrite packed_word_sum by lia.
    pose proof (Z.mod_pos_bound (ce_hash e) (2 ^ 22)). lia.
  - intros Hocc'. unfold occupied in *. cbn [ce_callsign] in Hocc'. congruence.
Qed.

Lemma run_op_entries_ok op g g' :
  cache_wf g → op_typed op →
  (∀ i e, callsign_hashtable g !! i = Some e → entry_ok e) →
  run_op op g = Done g' →
  ∀ i e, callsign_hashtable g' !! i = Some e → entry_ok e.
Proof.
  intros Hwf Hop Hok Hrun. destruct op as [|callsign hash|max_age]; cbn [run_op op_typed] in *.
  - assert (g' = hashtable_init) as -> by congruence.
    intros i e He. apply lookup_replicate in He as [-> _]. apply entry_ok_zero.
  - destruct Hop as [Hne Hh].
    destruct (hashtable_add_Done _ _ _ _ Hwf Hrun)
      as (j & Hj & [(e0 & He0 & Hocc0 & _ & _ & ->)|(e0 & He0 & Hocc0 & ->)]);
      cbn [callsign_hashtable]; intros i e He.
    + destruct (decide (j = i)) as [->|Hne'].
      * rewrite list_lookup_insert_eq in He by (by apply lookup_lt_Some in He0).
        inversion He; subst e. destruct (Hok i e0 He0) as (Hlen & Hb & _).
        split; [|split]; cbn [ce_callsign ce_hash].
        -- done.
        -- rewrite id_mask_ones, Z.land_ones by lia.
           pose proof (Z.mod_pos_bound (ce_hash e0) (2 ^ 22)). lia.
        -- intros Hocc'. unfold occupied in *. cbn [ce_callsign] in Hocc'. congruence.
      * rewrite list_lookup_insert_ne in He by done. by eapply Hok.
    + destruct (decide (j = i)) as [->|Hne'].
      * rewrite list_lookup_insert_eq in He by (by apply lookup_lt_Some in He0).
        assert (e = {| ce_hash := hash; ce_callsign := strncpy 11 callsign |}) as ->
          by congruence.
        split; [|split].
        -- apply strncpy_length.
        -- exact Hh.
        -- intros Hocc'. apply occupied_false in Hocc'.
           by destruct (strncpy_nonempty 10 callsign Hne).
      * rewrite list_lookup_insert_ne in He by done. by eapply Hok.
  - assert (g' = hashtable_cleanup max_age g) as -> by congruence.
    intros i e. rewrite hashtable_cleanup_lookup by done.
    destruct (callsign_hashtable g !! i) as [e0|] eqn:He0; [|done].
    intros [= <-]. apply aged_entry_ok; [lia|by eapply Hok].
Qed.

Lemma run_ops_wf ops g g' : cache_wf g → run_ops ops g = Done g' → cache_wf g'.
Proof.
  revert g. induction ops as [|op ops IH]; intros g Hwf Hrun; cbn [run_ops] in Hrun.
  { by assert (g' = g) as -> by congruence. }
  destruct (run_op op g) as [g1|l] eqn:Hop; [|done].
  apply (IH g1); [|done].
  destruct op as [|callsign hash|max_age]; cbn [run_op] in Hop.
  - assert (g1 = hashtable_init) as -> by congruence. apply cache_wf_init.
  - by eapply hashtable_add_wf.
  - assert (g1 = hashtable_cleanup max_age g) as -> by congruence.
    by apply hashtable_cleanup_wf.
Qed.

(** X6.  The table after any run of typed operations that starts with
    [hashtable_init]: every stored callsign has at most 11 characters,
    whatever the length of the callsign passed to [hashtable_add]; every
    hash word fits 32 bits, so the age byte never carries out of the word;
    and every free slot is all zero. *)
Theorem table_entries_stay_in_shape (ops : list cache_op) (g0 g : cache) :
  Forall op_typed ops →
  run_ops (OpInit :: ops) g0 = Done g →
  cache_wf g ∧ ∀ i e, callsign_hashtable g !! i = Some e → entry_ok e.
Proof.
  intros Hops Hrun. cbn [run_ops run_op] in Hrun.
  assert (cache_wf hashtable_init
          ∧ ∀ i e, callsign_hashtable hashtable_init !! i = Some e → entry_ok e) as Hinit.
  { split; [apply cache_wf_init|]. intros i e He.
    apply lookup_replicate in He as [-> _]. apply entry_ok_zero. }
  revert Hinit Hrun. generalize hashtable_init as g1.
  induction Hops as [|op ops Hop _ IH]; intros g1 [Hwf Hok] Hrun; cbn [run_ops] in Hrun.
  { by assert (g = g1) as -> by congruence. }
  destruct (run_op op g1) as [g2|l] eqn:Hop2; [|done].
  apply (IH g2); [|done]. split.
  - apply (run_ops_wf [op] g1); [done|]. cbn [run_ops]. by rewrite Hop2.
  - by eapply run_op_entries_ok.
Qed.

(** X1.  After any run of [hashtable_init], saves of non-empty callsigns
    and cleanups that comes to its end, [callsign_hashtable_size] is the
    number of slots whose callsign is not empty, and so lies between 0 and
    256. *)
Theorem live_count_tracks_occupancy (ops : list cache_op) (g0 g : cache) :
  Forall op_ok ops →
  run_ops (OpInit :: ops) g0 = Done g →
  callsign_hashtable_size g = Z.of_nat (count_if occupied (callsign_hashtable g))
  ∧ (0 ≤ callsign_hashtable_size g ≤ 256)%Z.
Proof.
  intros Hops Hrun. cbn [run_ops run_op] in Hrun.
  destruct (live_count_invariant ops hashtable_init g) as [Hwf Hcount];
    [apply cache_wf_init|reflexivity|done|done|].
  split; [done|]. rewrite Hcount.
  pose proof (count_if_le_length occupied (callsign_hashtable g)) as Hle.
  rewrite Hwf in Hle. unfold CALLSIGN_HASHTABLE_SIZE in Hle. lia.
Qed.

(** X7.  After [hashtable_cleanup (max_age)] with an 8-bit [max_age] every
    entry still in the table has an age between 1 and [max_age]; with
    [max_age] 0 nothing is left. *)
Theorem cleanup_bounds_ages (max_age : Z) (g : cache) (i : nat)
    (e : callsign_hashtable_entry_t) :
  cache_wf g → (max_age ≤ 255)%Z →
  callsign_hashtable (hashtable_cleanup max_age g) !! i = Some e →
  occupied e = true →
  (1 ≤ entry_age e ≤ max_age)%Z.
Proof.
  intros Hwf Hmax He Hocc. rewrite hashtable_cleanup_lookup in He by done.
  destruct (callsign_hashtable g !! i) as [e0|] eqn:He0; [|done].
  inversion He; subst e. clear He.
  destruct (occupied e0) eqn:Hocc0.
  2:{ rewrite aged_entry_free in Hocc by done. congruence. }
  destruct (Z.lt_ge_cases (entry_age e0) max_age) as [Hlt|Hge].
  - destruct (aged_entry_kept max_age e0) as (_ & Hage & _); [done..|].
    pose proof (entry_age_bounds e0). lia.
  - rewrite aged_entry_evicted in Hocc by done. done.
Qed.

(** ** [hashtable_lookup] *)

Lemma lookup_match_true hash_type hash e :
  lookup_match hash_type hash e = true
  ↔ Z.shiftr (entry_id e) (hash_shift hash_type) = Z.land hash (hash_mask hash_type).
Proof. unfold lookup_match, entry_id. apply Z.eqb_eq. Qed.

Lemma lookup_match_false hash_type hash e :
  lookup_match hash_type hash e = false
  ↔ Z.shiftr (entry_id e) (hash_shift hash_type) ≠ Z.land hash (hash_mask hash_type).
Proof. unfold lookup_match, entry_id. apply Z.eqb_neq. Qed.

(** X3.  What [hashtable_lookup] returns.  When it reports a callsign, the
    callsign is not empty and is that of the first slot, on the way from
    slot [hash % 256] upwards (modulo 256) over occupied slots, whose
    identity bits shifted by the shift of the hash type equal the masked
    hash: the first match wins.  When it reports nothing, the buffer is
    the empty string. *)
Theorem lookup_returns_first_match
    (hash_type : ftx_callsign_hash_type_t) (hash : Z) (g : cache)
    (found : bool) (callsign : string) :
  cache_wf g →
  hashtable_lookup hash_type hash g = Done (found, callsign) →
  (found = true →
   callsign ≠ ""
   ∧ ∃ k e, k < CALLSIGN_HASHTABLE_SIZE
       ∧ callsign_hashtable g !! ((Z.to_nat (hash mod 256) + k) mod CALLSIGN_HASHTABLE_SIZE)
         = Some e
       ∧ ce_callsign e = callsign
       ∧ Z.shiftr (entry_id e) (hash_shift hash_type) = Z.land hash (hash_mask hash_type)
       ∧ ∀ k', k' < k →
           ∃ e', callsign_hashtable g
                   !! ((Z.to_nat (hash mod 256) + k') mod CALLSIGN_HASHTABLE_SIZE) = Some e'
                 ∧ occupied e' = true
                 ∧ Z.shiftr (entry_id e') (hash_shift hash_type)
                   ≠ Z.land hash (hash_mask hash_type))
  ∧ (found = false → callsign = "").
Proof.
  intros Hwf. unfold hashtable_lookup, lookup_probe.
  destruct (linear_probe _ _ _ _ _ _) as [r|] eqn:Hp; [|done].
  apply linear_probe_sound in Hp as (k & Hk & Hidx & Hstop & Hpass);
    [|apply size_256_pos|apply probe_start_lt_256].
  destruct r as [i|i]; cbn [stop_idx stops] in *.
  { intros [= <- <-]. split; [done|done]. }
  destruct Hstop as (e & He & Hf & Hm). rewrite He. intros [= <- <-].
  split; [|done]. intros _. split.
  { by apply occupied_true, slot_free_false. }
  exists k, e. rewrite <- Hidx. split_and!; [done|done|done|by apply lookup_match_true|].
  intros k' Hk'. destruct (Hpass k' Hk') as (e' & He' & Hf' & Hm').
  exists e'. split_and!; [done|by apply slot_free_false|by apply lookup_match_false].
Qed.

(** X4.  A lookup for a hash that no entry matches: with a free slot in
    the table it reports nothing and leaves the buffer empty; in a table
    without a free slot its [while] loop never exits. *)
Theorem lookup_of_missing_key
    (hash_type : ftx_callsign_hash_type_t) (hash : Z) (g : cache) :
  cache_wf g →
  (∀ i e, callsign_hashtable g !! i = Some e → occupied e = true →
          Z.shiftr (entry_id e) (hash_shift hash_type)
          ≠ Z.land hash (hash_mask hash_type)) →
  (0 < free_slots g → hashtable_lookup hash_type hash g = Done (false, ""))
  ∧ (free_slots g = 0 →
     hashtable_lookup hash_type hash g = Hang LoopLookup
     ∧ ∀ fuel, lookup_probe fuel (callsign_hashtable g) hash_type hash = None).
Proof.
  intros Hwf Hmiss. split.
  - intros Hfree.
    destruct (hashtable_lookup_returns hash_type hash g Hwf Hfree) as [[found cs] Hr].
    rewrite Hr. unfold hashtable_lookup, lookup_probe in Hr.
    destruct (linear_probe _ _ _ _ _ _) as [r|] eqn:Hp; [|done].
    apply linear_probe_sound in Hp as (k & Hk & Hidx & Hstop & Hpass);
      [|apply size_256_pos|apply probe_start_lt_256].
    destruct r as [i|i]; cbn [stops] in Hstop; [done|].
    destruct Hstop as (e & He & Hf & Hm).
    apply lookup_match_true in Hm. apply slot_free_false in Hf.
    by destruct (Hmiss i e He Hf).
  - intros Hfull.
    assert (∀ fuel, lookup_probe fuel (callsign_hashtable g) hash_type hash = None) as Hnone.
    { intros fuel. unfold lookup_probe. apply linear_probe_stuck.
      - apply size_256_pos.
      - intros j Hj. destruct (lookup_lt_is_Some_2 (callsign_hashtable g) j) as [e He].
        { unfold cache_wf in Hwf. lia. }
        exists e. destruct (slot_free e) eqn:Hf.
        { exfalso. unfold free_slots in Hfull.
          apply list_elem_of_split_length in He as (l1 & l2 & Heq & _).
          rewrite Heq, count_if_app in Hfull. cbn [count_if] in Hfull.
          rewrite Hf in Hfull. lia. }
        split_and!; [done|done|].
        apply lookup_match_false, (Hmiss j e He). by apply slot_free_false.
      - apply probe_start_lt_256. }
    split; [|done]. unfold hashtable_lookup. by rewrite Hnone.
Qed.

(** ** [hashtable_add] *)

Lemma Done_inj {A} (a b : A) : Done a = Done b → a = b.
Proof. congruence. Qed.

(** X5.  Saving the same callsign under the same hash again changes
    nothing: the second [hashtable_add] finds the entry of the first, and
    the table and the live count stay as the first left them. *)
Theorem save_twice_is_save_once (callsign : string) (hash : Z) (g g1 : cache) :
  cache_wf g → (0 ≤ hash < 2 ^ 22)%Z →
  callsign ≠ "" → String.length callsign ≤ 11 →
  hashtable_add callsign hash g = Done g1 →
  hashtable_add callsign hash g1 = Done g1.
Proof.
  intros Hwf Hh Hne Hlen Hadd.
  pose proof (land_id_mask_small hash Hh) as Hland.
  unfold hashtable_add, add_probe in Hadd.
  destruct (linear_probe _ _ _ _ _ _) as [r|] eqn:Hp; [|done].
  apply linear_probe_sound in Hp as (k & Hk & Hidx & Hstop & Hpass);
    [|apply size_256_pos|apply probe_start_lt_256].
  (* the slot the first save ends at, and what it leaves there *)
  assert (∃ i e1, stop_idx r = i ∧ i < length (callsign_hashtable g)
            ∧ g1 = {| callsign_hashtable := <[i := e1]> (callsign_hashtable g);
                      callsign_hashtable_size := callsign_hashtable_size g1 |}
            ∧ slot_free e1 = false ∧ add_match callsign hash e1 = true
            ∧ Z.land (ce_hash e1) 0x3FFFFF = ce_hash e1
            ∧ ∀ e, callsign_hashtable g !! i = Some e →
                   slot_free e = true ∨ add_match callsign hash e = true)
    as (i & e1 & Hi & Hlt & Hg1 & Hf1 & Hm1 & Hid1 & Hold).
  { destruct r as [i|i]; cbn [stop_idx stops] in *.
    - destruct Hstop as (e & He & Hf). apply Done_inj in Hadd as <-.
      exists i, {| ce_hash := hash; ce_callsign := strncpy 11 callsign |}.
      rewrite strncpy_short by done.
      split_and!; [done|by apply lookup_lt_Some in He|done| | |done|].
      + apply slot_free_false, occupied_true. done.
      + by apply add_match_true.
      + intros e' He'. left. congruence.
    - destruct Hstop as (e & He & Hf & Hm). rewrite He in Hadd.
      apply Done_inj in Hadd as <-.
      exists i, {| ce_hash := Z.land (ce_hash e) 0x3FFFFF; ce_callsign := ce_callsign e |}.
      split_and!; [done|by apply lookup_lt_Some in He|done|exact Hf| |apply land_id_mask_idem|].
      + apply add_match_true in Hm as [Hid Hcs]. apply add_match_true.
        unfold entry_id in *. cbn [ce_hash ce_callsign]. by rewrite land_id_mask_idem.
      + intros e' He'. right. congruence. }
  rewrite Hi in Hidx.
  assert (linear_probe CALLSIGN_HASHTABLE_SIZE slot_free (add_match callsign hash) (S k)
            (callsign_hashtable g1) (Z.to_nat (hash mod 256)) = Some (AtHit i)) as Hfind.
  { rewrite Hg1. cbn [callsign_hashtable].
    apply linear_probe_complete; [apply size_256_pos|apply probe_start_lt_256| |done|].
    - intros k' Hk'. destruct (Hpass k' Hk') as (e' & He' & Hf' & Hm').
      exists e'. split_and!; [|done|done].
      rewrite list_lookup_insert_ne; [done|]. intros Heq. rewrite Heq in Hold.
      destruct (Hold e' He'); congruence.
    - cbn [stops]. exists e1. split_and!; [|done|done].
      by apply list_lookup_insert_eq. }
  unfold hashtable_add, add_probe.
  rewrite (linear_probe_mono _ _ _ size_256_pos _ _ _ _ _ Hfind)
    by (unfold CALLSIGN_HASHTABLE_SIZE in *; lia).
  rewrite Hg1 at 1. cbn [callsign_hashtable].
  rewrite list_lookup_insert_eq by done. rewrite Hid1.
  f_equal. rewrite Hg1 at 3. f_equal.
  - rewrite Hg1 at 1. cbn [callsign_hashtable]. rewrite list_insert_insert_eq.
    by destruct e1.
Qed.

(** ** Tables built by saves alone *)

Lemma saved_inv_init : saved_inv hashtable_init [].
Proof.
  split_and!.
  - apply cache_wf_init.
  - intros i e He Hocc. apply lookup_replicate in He as [-> _]. done.
  - intros callsign hash Hin. by apply elem_of_nil in Hin.
  - intros i j e e' He _ Hocc. apply lookup_replicate in He as [-> _]. done.
Qed.

(** A pair that is in the table is found by the probe of [hashtable_add]. *)
Lemma saved_inv_add_hit g l callsign hash :
  saved_inv g l → (callsign, hash) ∈ l →
  ∃ j, add_probe CALLSIGN_HASHTABLE_SIZE (callsign_hashtable g) callsign hash
       = Some (AtHit j).
Proof.
  intros (Hwf & _ & Hchain & _) Hin.
  destruct (Hchain callsign hash Hin) as (k & Hk & He & Hne & Hh & Hocc).
  destruct (linear_probe_finds CALLSIGN_HASHTABLE_SIZE slot_free (add_match callsign hash)
              size_256_pos k (callsign_hashtable g) (Z.to_nat (hash mod 256))
              {| ce_hash := hash; ce_callsign := callsign |}) as [j Hj].
  - apply probe_start_lt_256.
  - done.
  - by apply slot_free_false, occupied_true.
  - apply add_match_true. split; [by apply land_id_mask_small|done].
  - done.
  - exists j. unfold add_probe.
    eapply linear_probe_mono; [apply size_256_pos|apply Hj|lia].
Qed.

Lemma saved_inv_step g l callsign hash g' :
  saved_inv g l →
  callsign ≠ "" → String.length callsign ≤ 11 → (0 ≤ hash < 2 ^ 22)%Z →
  hashtable_add callsign hash g = Done g' →
  saved_inv g' ((callsign, hash) :: l).
Proof.
  intros Hinv Hne Hlen Hh Hadd.
  pose proof Hinv as (Hwf & Hslot & Hchain & Huniq).
  pose proof (land_id_mask_small hash Hh) as Hland.
  unfold hashtable_add in Hadd.
  destruct (add_probe _ _ _ _) as [r|] eqn:Hprobe; [|done].
  pose proof Hprobe as Hp. unfold add_probe in Hp.
  apply linear_probe_sound in Hp as (k & Hk & Hidx & Hstop & Hpass);
    [|apply size_256_pos|apply probe_start_lt_256].
  destruct r as [i|i]; cbn [stop_idx stops] in *.
  - (* a free slot: the pair is new *)
    destruct Hstop as (e & He & Hf). apply Done_inj in Hadd as <-.
    rewrite strncpy_short by done.
    assert (i < length (callsign_hashtable g)) as Hlt by (by apply lookup_lt_Some in He).
    assert ((callsign, hash) ∉ l) as Hnew.
    { intros Hin. destruct (saved_inv_add_hit g l callsign hash Hinv Hin) as [j Hj].
      congruence. }
    split_and!; cbn [callsign_hashtable].
    + unfold cache_wf in *. cbn [callsign_hashtable]. by rewrite length_insert.
    + intros j e' He' Hocc'. destruct (decide (i = j)) as [->|Hij].
      * rewrite list_lookup_insert_eq in He' by done. inversion He'; subst e'.
        cbn [ce_callsign ce_hash]. split; [apply list_elem_of_here|done].
      * rewrite list_lookup_insert_ne in He' by done.
        destruct (Hslot j e' He' Hocc') as [Hin Hb]. split; [|done].
        by apply list_elem_of_further.
    + assert (∀ j e', callsign_hashtable g !! j = Some e' → slot_free e' = false →
                ∃ e'', <[i := {| ce_hash := hash; ce_callsign := callsign |}]>
                         (callsign_hashtable g) !! j = Some e''
                       ∧ slot_free e'' = false) as Hkeep.
      { intros j e' He' Hf'. destruct (decide (i = j)) as [->|Hij].
        - congruence.
        - exists e'. by rewrite list_lookup_insert_ne. }
      intros cs h Hin. apply elem_of_cons in Hin as [[= -> ->]|Hin].
      * exists k. split_and!; [done| |done|lia|lia|].
        -- rewrite <- Hidx. by apply list_lookup_insert_eq.
        -- intros k' Hk'. destruct (Hpass k' Hk') as (e' & He' & Hf' & _). by eapply Hkeep.
      * destruct (Hchain cs h Hin) as (k0 & Hk0 & He0 & Hne0 & Hh0 & Hocc0).
        exists k0. split_and!; [done| |done|lia|lia|].
        -- rewrite list_lookup_insert_ne; [done|]. intros Heq. rewrite Heq in He.
           rewrite He0 in He. inversion He; subst e.
           apply slot_free_true, occupied_false in Hf. done.
        -- intros k' Hk'. destruct (Hocc0 k' Hk') as (e' & He' & Hf'). by eapply Hkeep.
    + intros j1 j2 e1 e2 He1 He2 Hocc1 Hcs Hhash.
      destruct (decide (i = j1)) as [<-|Hij1], (decide (i = j2)) as [<-|Hij2]; [done| | |].
      * rewrite list_lookup_insert_eq in He1 by done. inversion He1; subst e1.
        rewrite list_lookup_insert_ne in He2 by done. cbn [ce_callsign ce_hash] in *.
        destruct (Hslot j2 e2 He2) as [Hin _]; [apply occupied_true; congruence|].
        rewrite <- Hcs, <- Hhash in Hin. done.
      * rewrite list_lookup_insert_eq in He2 by done. inversion He2; subst e2.
        rewrite list_lookup_insert_ne in He1 by done. cbn [ce_callsign ce_hash] in *.
        destruct (Hslot j1 e1 He1 Hocc1) as [Hin _].
        rewrite Hcs, Hhash in Hin. done.
      * rewrite list_lookup_insert_ne in He1, He2 by done. by eapply Huniq.
  - (* the pair is there already: the table stays as it is *)
    destruct Hstop as (e & He & Hf & Hm). rewrite He in Hadd.
    apply Done_inj in Hadd as <-.
    apply slot_free_false in Hf. apply add_match_true in Hm as [Hid Hcs].
    destruct (Hslot i e He Hf) as [Hin Hb].
    assert (ce_hash e = hash) as Hhash.
    { unfold entry_id in Hid. by rewrite land_id_mask_small in Hid. }
    assert ({| ce_hash := Z.land (ce_hash e) 0x3FFFFF; ce_callsign := ce_callsign e |} = e)
      as ->.
    { rewrite land_id_mask_small by done. by destruct e. }
    rewrite list_insert_id by done.
    rewrite Hcs, Hhash in Hin.
    split_and!; cbn [callsign_hashtable].
    + done.
    + intros j e' He' Hocc'. destruct (Hslot j e' He' Hocc') as [Hin' Hb']. split; [|done].
      by apply list_elem_of_further.
    + intros cs h Hin'. apply elem_of_cons in Hin' as [[= -> ->]|Hin']; by apply Hchain.
    + done.
Qed.

Lemma saved_only_inv g l : saved_only g l → saved_inv g l.
Proof.
  induction 1 as [|g l callsign hash g' _ IH Hne Hlen Hh Hadd]; [apply saved_inv_init|].
  by eapply saved_inv_step.
Qed.

(** X13.  In a table built by saves alone, with no cleanup in between, no
    callsign is stored twice under the same hash: two slots in use that
    hold the same callsign and the same hash are one slot. *)
Theorem saves_alone_keep_pairs_unique (g : cache) (l : list (string * Z))
    (i j : nat) (e e' : callsign_hashtable_entry_t) :
  saved_only g l →
  callsign_hashtable g !! i = Some e →
  callsign_hashtable g !! j = Some e' →
  occupied e = true →
  ce_callsign e = ce_callsign e' → entry_id e = entry_id e' →
  i = j.
Proof.
  intros Hs He He' Hocc Hcs Hid.
  destruct (saved_only_inv g l Hs) as (_ & Hslot & _ & Huniq).
  apply (Huniq i j e e'); [done|done|done|done|].
  destruct (Hslot i e He Hocc) as [_ Hb].
  destruct (Hslot j e' He') as [_ Hb'];
    [apply occupied_true; rewrite <- Hcs; by apply occupied_true|].
  unfold entry_id in Hid. by rewrite !land_id_mask_small in Hid.
Qed.

(** X14.  In a table built by saves alone, the lookup by the full 22-bit
    hash reports a callsign exactly when some callsign was saved under that
    hash, and the callsign it reports is one that was saved under it. *)
Theorem full_lookup_finds_what_was_saved (g : cache) (l : list (string * Z)) (hash : Z) :
  saved_only g l → (0 ≤ hash < 2 ^ 22)%Z →
  ((∃ callsign, (callsign, hash) ∈ l)
   → ∃ callsign, hashtable_lookup FTX_CALLSIGN_HASH_22 hash g = Done (true, callsign)
                 ∧ (callsign, hash) ∈ l)
  ∧ (∀ callsign, hashtable_lookup FTX_CALLSIGN_HASH_22 hash g = Done (true, callsign)
                 → (callsign, hash) ∈ l).
Proof.
  intros Hs Hh. destruct (saved_only_inv g l Hs) as (Hwf & Hslot & Hchain & _).
  pose proof (land_id_mask_small hash Hh) as Hland.
  assert (∀ callsign, hashtable_lookup FTX_CALLSIGN_HASH_22 hash g = Done (true, callsign)
                      → (callsign, hash) ∈ l) as Hsound.
  { intros callsign. unfold hashtable_lookup, lookup_probe.
    destruct (linear_probe _ _ _ _ _ _) as [r|] eqn:Hp; [|done].
    apply linear_probe_sound in Hp as (k & Hk & Hidx & Hstop & Hpass);
      [|apply size_256_pos|apply probe_start_lt_256].
    destruct r as [i|i]; cbn [stops] in Hstop; [done|].
    destruct Hstop as (e & He & Hf & Hm). rewrite He. intros [= <-].
    apply slot_free_false in Hf. destruct (Hslot i e He Hf) as [Hin Hb].
    apply lookup_match_full in Hm. rewrite Hland in Hm.
    unfold entry_id in Hm. rewrite land_id_mask_small in Hm by done. by rewrite <- Hm. }
  split; [|done]. intros [cs Hin].
  destruct (Hchain cs hash Hin) as (k & Hk & He & Hne & _ & Hocc).
  destruct (linear_probe_finds CALLSIGN_HASHTABLE_SIZE slot_free
              (lookup_match FTX_CALLSIGN_HASH_22 hash)
              size_256_pos k (callsign_hashtable g) (Z.to_nat (hash mod 256))
              {| ce_hash := hash; ce_callsign := cs |}) as [j Hj].
  - apply probe_start_lt_256.
  - done.
  - by apply slot_free_false, occupied_true.
  - apply lookup_match_full. unfold entry_id. cbn [ce_hash]. congruence.
  - done.
  - assert (∃ callsign, hashtable_lookup FTX_CALLSIGN_HASH_22 hash g = Done (true, callsign))
      as [callsign Hr].
    { unfold hashtable_lookup, lookup_probe.
      rewrite (linear_probe_mono _ _ _ size_256_pos _ _ _ _ _ Hj)
        by (unfold CALLSIGN_HASHTABLE_SIZE in *; lia).
      pose proof Hj as Hj'.
      apply linear_probe_sound in Hj' as (_ & _ & _ & (e & He' & _) & _);
        [|apply size_256_pos|apply probe_start_lt_256].
      cbn [stop_idx] in *. rewrite He'. by eexists. }
    exists callsign. split; [done|by apply Hsound].
Qed.

(** ** The further properties of the table on concrete tables *)

Lemma k1abc_saved_run :
  run_ops [OpInit; OpSave "K1ABC" 1234567] hashtable_init = Done k1abc_saved.
Proof. vm_compute. reflexivity. Qed.

Lemma k1abc_saved_only : saved_only k1abc_saved [("K1ABC", 1234567%Z)].
Proof.
  apply (saved_add hashtable_init [] "K1ABC" 1234567 k1abc_saved saved_init);
    [done|simpl; lia|lia|vm_compute; reflexivity].
Qed.

Lemma k1abc_saved_slots i e :
  callsign_hashtable k1abc_saved !! i = Some e → occupied e = true →
  e = {| ce_hash := 1234567; ce_callsign := "K1ABC" |}.
Proof.
  unfold k1abc_saved. cbn [callsign_hashtable]. intros He Hocc.
  destruct (decide (135 = i)) as [<-|Hne].
  - rewrite list_lookup_insert_eq in He
      by (rewrite length_replicate; unfold CALLSIGN_HASHTABLE_SIZE; lia).
    congruence.
  - rewrite list_lookup_insert_ne in He by done.
    apply lookup_replicate in He as [-> _]. done.
Qed.

Lemma live_count_tracks_occupancy_witness :
  Forall op_ok [OpSave "K1ABC" 1234567; OpCleanup 10]
  ∧ run_ops (OpInit :: [OpSave "K1ABC" 1234567; OpCleanup 10]) hashtable_init
    = Done (hashtable_cleanup 10 k1abc_saved)
  ∧ (0 ≤ callsign_hashtable_size (hashtable_cleanup 10 k1abc_saved) ≤ 256)%Z.
Proof.
  assert (Forall op_ok [OpSave "K1ABC" 1234567; OpCleanup 10]) as Hok.
  { repeat constructor. done. }
  assert (run_ops (OpInit :: [OpSave "K1ABC" 1234567; OpCleanup 10]) hashtable_init
          = Done (hashtable_cleanup 10 k1abc_saved)) as Hrun.
  { vm_compute. reflexivity. }
  split; [exact Hok|]. split; [exact Hrun|].
  apply (live_count_tracks_occupancy _ _ _ Hok Hrun).
Defined.

Lemma lookup_full_finds_saved_witness :
  cache_wf hashtable_init ∧ (0 ≤ 1234567 < 2 ^ 22)%Z
  ∧ hashtable_lookup FTX_CALLSIGN_HASH_22 1234567 k1abc_saved = Done (true, "K1ABC").
Proof.
  split; [reflexivity|]. split; [lia|].
  apply (lookup_full_finds_saved "K1ABC" 1234567 hashtable_init k1abc_saved).
  - reflexivity.
  - lia.
  - done.
  - simpl. lia.
  - intros j e He Hocc. apply lookup_replicate in He as [-> _]. done.
  - vm_compute. reflexivity.
Defined.

Lemma lookup_returns_first_match_witness :
  cache_wf k1abc_saved
  ∧ hashtable_lookup FTX_CALLSIGN_HASH_22 1234567 k1abc_saved = Done (true, "K1ABC")
  ∧ "K1ABC" ≠ "".
Proof.
  assert (hashtable_lookup FTX_CALLSIGN_HASH_22 1234567 k1abc_saved = Done (true, "K1ABC"))
    as Hr by (vm_compute; reflexivity).
  split; [reflexivity|]. split; [exact Hr|].
  destruct (lookup_returns_first_match FTX_CALLSIGN_HASH_22 1234567 k1abc_saved
              true "K1ABC") as [Hfound _]; [reflexivity|exact Hr|].
  destruct Hfound as [Hne _]; [reflexivity|exact Hne].
Defined.

Lemma lookup_of_missing_key_witness :
  cache_wf k1abc_saved ∧ 0 < free_slots k1abc_saved
  ∧ hashtable_lookup FTX_CALLSIGN_HASH_12 999 k1abc_saved = Done (false, "").
Proof.
  assert (0 < free_slots k1abc_saved) as Hfree by (vm_compute; lia).
  split; [reflexivity|]. split; [exact Hfree|].
  destruct (lookup_of_missing_key FTX_CALLSIGN_HASH_12 999 k1abc_saved) as [Hmiss _].
  - reflexivity.
  - intros i e He Hocc. rewrite (k1abc_saved_slots i e He Hocc). by vm_compute.
  - apply Hmiss, Hfree.
Defined.

Lemma save_twice_is_save_once_witness :
  cache_wf hashtable_init ∧ (0 ≤ 1234567 < 2 ^ 22)%Z
  ∧ hashtable_add "K1ABC" 1234567 hashtable_init = Done k1abc_saved
  ∧ hashtable_add "K1ABC" 1234567 k1abc_saved = Done k1abc_saved.
Proof.
  assert (hashtable_add "K1ABC" 1234567 hashtable_init = Done k1abc_saved) as Hadd
    by (vm_compute; reflexivity).
  split; [reflexivity|]. split; [lia|]. split; [exact Hadd|].
  apply (save_twice_is_save_once "K1ABC" 1234567 hashtable_init k1abc_saved);
    [reflexivity|lia|done|simpl; lia|exact Hadd].
Defined.

Lemma table_entries_stay_in_shape_witness :
  Forall op_typed [OpSave "VERYLONGCALLSIGN" 7; OpCleanup 10]
  ∧ run_ops (OpInit :: [OpSave "VERYLONGCALLSIGN" 7; OpCleanup 10]) hashtable_init
    = Done (hashtable_cleanup 10 verylong_saved)
  ∧ callsign_hashtable (hashtable_cleanup 10 verylong_saved) !! 7
    = Some {| ce_hash := 16777223; ce_callsign := "VERYLONGCAL" |}
  ∧ entry_ok {| ce_hash := 16777223; ce_callsign := "VERYLONGCAL" |}.
Proof.
  assert (Forall op_typed [OpSave "VERYLONGCALLSIGN" 7; OpCleanup 10]) as Hok.
  { repeat constructor; try done; lia. }
  assert (run_ops (OpInit :: [OpSave "VERYLONGCALLSIGN" 7; OpCleanup 10]) hashtable_init
          = Done (hashtable_cleanup 10 verylong_saved)) as Hrun
    by (vm_compute; reflexivity).
  assert (callsign_hashtable (hashtable_cleanup 10 verylong_saved) !! 7
          = Some {| ce_hash := 16777223; ce_callsign := "VERYLONGCAL" |}) as He
    by (vm_compute; reflexivity).
  split; [exact Hok|]. split; [exact Hrun|]. split; [exact He|].
  destruct (table_entries_stay_in_shape _ _ _ Hok Hrun) as [_ Hshape].
  eapply Hshape, He.
Defined.

Lemma cleanup_bounds_ages_witness :
  cache_wf k1abc_saved ∧ (10 ≤ 255)%Z
  ∧ callsign_hashtable (hashtable_cleanup 10 k1abc_saved) !! 135
    = Some {| ce_hash := 18011783; ce_callsign := "K1ABC" |}
  ∧ (1 ≤ entry_age {| ce_hash := 18011783; ce_callsign := "K1ABC" |} ≤ 10)%Z.
Proof.
  assert (callsign_hashtable (hashtable_cleanup 10 k1abc_saved) !! 135
          = Some {| ce_hash := 18011783; ce_callsign := "K1ABC" |}) as He
    by (vm_compute; reflexivity).
  split; [reflexivity|]. split; [lia|]. split; [exact He|].
  apply (cleanup_bounds_ages 10 k1abc_saved 135 _); [reflexivity|lia|exact He|reflexivity].
Defined.

Lemma saves_alone_keep_pairs_unique_witness :
  saved_only k1abc_saved [("K1ABC", 1234567%Z)]
  ∧ callsign_hashtable k1abc_saved !! 135
    = Some {| ce_hash := 1234567; ce_callsign := "K1ABC" |}
  ∧ 135 = 135.
Proof.
  split; [apply k1abc_saved_only|]. split; [reflexivity|].
  apply (saves_alone_keep_pairs_unique k1abc_saved _ 135 135
           {| ce_hash := 1234567; ce_callsign := "K1ABC" |}
           {| ce_hash := 1234567; ce_callsign := "K1ABC" |} k1abc_saved_only);
    reflexivity.
Defined.

Lemma full_lookup_finds_what_was_saved_witness :
  saved_only k1abc_saved [("K1ABC", 1234567%Z)] ∧ (0 ≤ 1234567 < 2 ^ 22)%Z
  ∧ ∃ callsign,
      hashtable_lookup FTX_CALLSIGN_HASH_22 1234567 k1abc_saved = Done (true, callsign)
      ∧ (callsign, 1234567%Z) ∈ [("K1ABC", 1234567%Z)].
Proof.
  split; [apply k1abc_saved_only|]. split; [lia|].
  destruct (full_lookup_finds_what_was_saved k1abc_saved _ 1234567 k1abc_saved_only)
    as [Hfind _]; [lia|].
  apply Hfind. exists "K1ABC". apply list_elem_of_here.
Defined.


(** * Further properties of the decoder wrapper *)

Section wrapper_more_facts.
Context {L : ft8_lib}.

(** ** The list of unique decodes *)

Lemma spec_unique_decoded_elem d seen cl c m :
  (c, m) ∈ spec_unique_decoded d seen cl →
  c ∈ cl ∧ ftx_decode_candidate (mon d) c kLdpcIters = Some m ∧ m ∉ seen.
Proof.
  revert seen. induction cl as [|cand rest IH]; intros seen Hin; cbn [spec_unique_decoded] in Hin.
  { by apply elem_of_nil in Hin. }
  destruct (ftx_decode_candidate (mon d) cand kLdpcIters) as [message|] eqn:Hdec.
  2:{ destruct (IH seen Hin) as (? & ? & ?). split_and!; [by apply list_elem_of_further|done..]. }
  destruct (decide (message ∈ seen)) as [Hseen|Hnew].
  { destruct (IH seen Hin) as (? & ? & ?). split_and!; [by apply list_elem_of_further|done..]. }
  apply elem_of_cons in Hin as [[= -> ->]|Hin].
  - split_and!; [apply list_elem_of_here|done|done].
  - destruct (IH _ Hin) as (? & ? & Hnot). split_and!; [by apply list_elem_of_further|done|].
    intros Hm. apply Hnot. by apply list_elem_of_further.
Qed.

Lemma spec_unique_decoded_NoDup d seen cl : NoDup (spec_unique_decoded d seen cl).*2.
Proof.
  revert seen. induction cl as [|cand rest IH]; intros seen; cbn [spec_unique_decoded].
  { apply NoDup_nil_2. }
  destruct (ftx_decode_candidate (mon d) cand kLdpcIters) as [message|]; [|apply IH].
  destruct (decide (message ∈ seen)) as [Hseen|Hnew]; [apply IH|].
  cbn [fmap list_fmap snd]. apply NoDup_cons. split; [|apply IH].
  intros Hin. apply list_elem_of_fmap in Hin as ([c m] & -> & Hin).
  apply spec_unique_decoded_elem in Hin as (_ & _ & Hnot). apply Hnot, list_elem_of_here.
Qed.

Lemma spec_unique_decoded_sublist d seen cl : (spec_unique_decoded d seen cl).*1 `sublist_of` cl.
Proof.
  revert seen. induction cl as [|cand rest IH]; intros seen; cbn [spec_unique_decoded].
  { done. }
  destruct (ftx_decode_candidate (mon d) cand kLdpcIters) as [message|];
    [|by apply sublist_cons].
  destruct (decide (message ∈ seen)) as [Hseen|Hnew]; [by apply sublist_cons|].
  cbn [fmap list_fmap fst]. by apply sublist_skip.
Qed.

Lemma spec_unique_decoded_complete d seen cl c m :
  c ∈ cl → ftx_decode_candidate (mon d) c kLdpcIters = Some m → m ∉ seen →
  m ∈ (spec_unique_decoded d seen cl).*2.
Proof.
  revert seen. induction cl as [|cand rest IH]; intros seen Hc Hdec Hnew.
  { by apply elem_of_nil in Hc. }
  cbn [spec_unique_decoded].
  destruct (ftx_decode_candidate (mon d) cand kLdpcIters) as [message|] eqn:Hcand.
  - destruct (decide (message ∈ seen)) as [Hseen|Hnew'].
    + apply elem_of_cons in Hc as [->|Hc]; [congruence|by apply IH].
    + cbn [fmap list_fmap snd]. destruct (decide (m = message)) as [->|Hne].
      { apply list_elem_of_here. }
      apply list_elem_of_further.
      apply elem_of_cons in Hc as [->|Hc]; [congruence|].
      apply IH; [done|done|]. intros Hin. apply elem_of_cons in Hin as [?|?]; done.
  - apply elem_of_cons in Hc as [->|Hc]; [congruence|by apply IH].
Qed.

Lemma spec_report_length d picks g records g' :
  spec_report d picks g = Done (records, g') → length records = length picks.
Proof.
  revert g records. induction picks as [|[c m] rest IH]; intros g records; cbn [spec_report].
  { by intros [= <- <-]. }
  destruct (run_unpack _ _) as [[[rc unpacked] g1]|l]; [|done].
  destruct (spec_report d rest g1) as [[rs g2]|l] eqn:Hrest; [|done].
  intros [= <- <-]. cbn [length]. f_equal. by eapply IH.
Qed.

(** ** The loop, step by step *)

(** Once [max_results] records are written the loop is over. *)
Lemma decode_loop_capped d max_results cl st :
  (max_results ≤ num_decoded st)%Z → decode_loop d max_results cl st = Done st.
Proof.
  intros Hcap. destruct cl as [|cand rest]; [done|]. rewrite decode_loop_cons.
  destruct (Z.ltb_spec (num_decoded st) max_results); [lia|done].
Qed.

Lemma decode_loop_no_message d max_results cl st :
  (∀ c, c ∈ cl → ftx_decode_candidate (mon d) c kLdpcIters = None) →
  decode_loop d max_results cl st = Done st.
Proof.
  induction cl as [|cand rest IH]; intros Hnone; [done|]. rewrite decode_loop_cons.
  destruct (num_decoded st <? max_results)%Z; [|done].
  rewrite (Hnone cand) by apply list_elem_of_here.
  apply IH. intros c Hc. apply Hnone. by apply list_elem_of_further.
Qed.

(** The loop against the specification's report, records and callsign
    table: the hash table of the loop picks the specification's unique
    decodes, and the records and the table are those of [spec_report]. *)
Lemma decode_loop_spec d max_results cl st ms :
  dedup_reachable (decoded_hashtable st) ms →
  length ms + length cl ≤ DECODED_SIZE →
  (0 ≤ num_decoded st)%Z →
  Z.to_nat max_results ≤ length (out_buf st) →
  match spec_report d (take (Z.to_nat (max_results - num_decoded st))
                         (spec_unique_decoded d ms cl)) (st_cache st) with
  | Done (records, g') =>
    ∃ st', decode_loop d max_results cl st = Done st'
      ∧ num_decoded st' = (num_decoded st + Z.of_nat (length records))%Z
      ∧ out_buf st' = take (Z.to_nat (num_decoded st)) (out_buf st) ++ records
                      ++ drop (Z.to_nat (num_decoded st) + length records) (out_buf st)
      ∧ st_cache st' = g'
  | Hang l => decode_loop d max_results cl st = Hang l
  end.
Proof.
  revert st ms. induction cl as [|cand rest IH]; intros st ms Hreach Hlen Hpos Hcap.
  { cbn [spec_unique_decoded]. rewrite take_nil. cbn [spec_report].
    exists st. split_and!; [done|simpl; lia| |done].
    cbn [app length]. by rewrite Nat.add_0_r, take_drop. }
  cbn [length] in Hlen. rewrite decode_loop_cons.
  destruct (Z.ltb_spec (num_decoded st) max_results) as [Hlt|Hge].
  2:{ replace (Z.to_nat (max_results - num_decoded st)) with 0 by lia.
      rewrite take_0. cbn [spec_report].
      exists st. split_and!; [done|simpl; lia| |done].
      cbn [app length]. by rewrite Nat.add_0_r, take_drop. }
  cbn [spec_unique_decoded].
  destruct (ftx_decode_candidate _ _ _) as [message|]; [|apply (IH st ms); [done|lia|done|done]].
  destruct (decide (message ∈ ms)) as [Hseen|Hnew].
  { destruct (dedup_reachable_finds _ _ _ Hreach Hseen) as [i ->].
    apply (IH st ms); [done|lia|done|done]. }
  destruct (dedup_reachable_new _ _ message Hreach) as [idx Hidx]; [lia|done|].
  rewrite Hidx.
  replace (Z.to_nat (max_results - num_decoded st))
    with (S (Z.to_nat (max_results - (num_decoded st + 1)))) by lia.
  rewrite firstn_cons. cbn [spec_report].
  destruct (run_unpack _ _) as [[[rc unpacked] g1]|l]; [|done].
  specialize (IH {| num_decoded := (num_decoded st + 1)%Z;
                    out_buf := <[Z.to_nat (num_decoded st) :=
                                   make_result d cand rc unpacked]> (out_buf st);
                    decoded_hashtable := <[idx := Some message]> (decoded_hashtable st);
                    st_cache := g1 |} (message :: ms)).
  cbn [num_decoded out_buf decoded_hashtable st_cache] in IH.
  rewrite length_insert in IH.
  specialize (IH ltac:(by apply dedup_store) ltac:(cbn [length]; lia) ltac:(lia) Hcap).
  destruct (spec_report d _ g1) as [[records g2]|l]; [|done].
  destruct IH as (st' & Hrun & Hnum & Hout & Hcache).
  exists st'. split_and!; [done|cbn [length]; lia| |done].
  rewrite Hout.
  replace (Z.to_nat (num_decoded st + 1)) with (S (Z.to_nat (num_decoded st))) by lia.
  assert (Z.to_nat (num_decoded st) < length (out_buf st)) as Hroom by lia.
  rewrite (take_S_r _ _ (make_result d cand rc unpacked))
    by (by apply list_lookup_insert_eq).
  rewrite take_insert_ge by lia. rewrite drop_insert_lt by lia.
  rewrite <- app_assoc. cbn [app length].
  replace (Z.to_nat (num_decoded st) + S (length records))
    with (S (Z.to_nat (num_decoded st)) + length records) by lia.
  done.
Qed.

(** The records of a valid call that returns, against the list of unique
    decodes. *)
Lemma ft8_decoder_decode_records d o max_results g r :
  (0 < max_results)%Z → Z.to_nat max_results ≤ length o →
  ft8_decoder_decode (Some d) (Some o) max_results g = Done r →
  let uniq := spec_unique_decoded d []
                (ftx_find_candidates (mon d) kMaxCandidates kMinScore) in
  Z.to_nat (ret r) = Nat.min (Z.to_nat max_results) (length uniq)
  ∧ (0 ≤ ret r)%Z
  ∧ ∃ o', out_after r = Some o'
      ∧ ∀ k, k < Z.to_nat (ret r) →
          ∃ c m rc unpacked,
            uniq !! k = Some (c, m) ∧ o' !! k = Some (make_result d c rc unpacked).
Proof.
  intros Hpos Hcap. rewrite ft8_decoder_decode_valid by done.
  destruct (decode_loop _ _ _ _) as [st|l] eqn:Hloop; [|done].
  intros [= <-] uniq. cbn [ret out_after].
  pose proof Hloop as Hframe.
  apply decode_loop_frame in Hframe as (Hle & _ & Hlen & _); [|done].
  apply (decode_loop_Done _ _ _ _ []) in Hloop as [Hnum Hres]; [|apply dedup_start|done].
  cbn [num_decoded out_buf] in *. fold uniq in Hnum, Hres.
  rewrite Z.sub_0_r in Hnum, Hres. rewrite length_take in Hnum.
  split_and!; [lia|lia|].
  exists (out_buf st). split; [done|]. intros k Hk.
  destruct (lookup_lt_is_Some_2 (take (Z.to_nat max_results) uniq) k) as [[c m] Hcm].
  { rewrite length_take. lia. }
  destruct (Hres k c m Hcm) as (rc & unpacked & Hr); [simpl; lia|].
  exists c, m, rc, unpacked. split; [|done].
  rewrite lookup_take_lt in Hcm by lia. done.
Qed.

(** The count of a valid call that returns. *)
Lemma ft8_decoder_decode_count d o max_results g r :
  (0 < max_results)%Z →
  ft8_decoder_decode (Some d) (Some o) max_results g = Done r →
  ret r = Z.of_nat (length (take (Z.to_nat max_results)
                              (spec_unique_decoded d []
                                 (ftx_find_candidates (mon d) kMaxCandidates kMinScore)))).
Proof.
  intros Hpos. rewrite ft8_decoder_decode_valid by done.
  destruct (decode_loop _ _ _ _) as [st|l] eqn:Hloop; [|done].
  intros Hr. apply Done_inj in Hr. subst r. cbn [ret].
  apply (decode_loop_Done _ _ _ _ []) in Hloop as [Hnum _]; [|apply dedup_start|done].
  cbn [num_decoded] in Hnum. rewrite Z.sub_0_r in Hnum. lia.
Qed.

(** A valid call returns when the callsign table has room. *)
Lemma ft8_decoder_decode_returns d o max_results g b :
  (0 < max_results)%Z →
  length (ftx_find_candidates (mon d) kMaxCandidates kMinScore) ≤ kMaxCandidates →
  cache_wf g →
  (∀ c m, c ∈ ftx_find_candidates (mon d) kMaxCandidates kMinScore →
          ftx_decode_candidate (mon d) c kLdpcIters = Some m →
          saves_le b (ftx_message_decode m)) →
  b * length (ftx_find_candidates (mon d) kMaxCandidates kMinScore) < free_slots g →
  returns (ft8_decoder_decode (Some d) (Some o) max_results g).
Proof.
  intros Hpos Hcl Hwf Hb Hfree. rewrite ft8_decoder_decode_valid by done.
  destruct (decode_loop_returns d max_results
              (ftx_find_candidates (mon d) kMaxCandidates kMinScore) b
              {| num_decoded := 0; out_buf := o;
                 decoded_hashtable := replicate DECODED_SIZE None; st_cache := g |} [])
    as [st ->]; [apply dedup_start|simpl; unfold kMaxCandidates, DECODED_SIZE in *; lia
                |done|done|done|].
  by eexists.
Qed.

(** The loop over a list in two parts. *)
Lemma decode_loop_app d max_results cl1 cl2 st :
  decode_loop d max_results (cl1 ++ cl2) st
  = (decode_loop d max_results cl1 st ≫= decode_loop d max_results cl2).
Proof.
  revert st. induction cl1 as [|cand rest IH]; intros st; [done|].
  cbn [app]. rewrite !decode_loop_cons.
  destruct (Z.ltb_spec (num_decoded st) max_results) as [Hlt|Hge].
  2:{ unfold mbind, outcome_bind. by rewrite decode_loop_capped. }
  destruct (ftx_decode_candidate _ _ _) as [message|]; [|apply IH].
  destruct (dedup_probe _ _ _) as [[idx|idx]|]; [|apply IH|done].
  destruct (run_unpack _ _) as [[[rc unpacked] g]|l]; [apply IH|done].
Qed.

(** While the loop has not filled [max_results] records, the table holds
    exactly the messages decoded from the candidates it has looked at. *)
Lemma decode_loop_seen d max_results cl st ms st' :
  dedup_reachable (decoded_hashtable st) ms →
  decode_loop d max_results cl st = Done st' →
  (num_decoded st' < max_results)%Z →
  ∃ ms', dedup_reachable (decoded_hashtable st') ms'
    ∧ ∀ m, m ∈ ms' ↔ m ∈ ms ∨ decoded_before d cl m.
Proof.
  revert st ms. induction cl as [|cand rest IH]; intros st ms Hreach Hrun Hlt.
  { inversion Hrun; subst st'. exists ms. split; [done|]. intros m. split; [by left|].
    intros [?|(c & Hc & _)]; [done|]. by apply elem_of_nil in Hc. }
  rewrite decode_loop_cons in Hrun.
  destruct (Z.ltb_spec (num_decoded st) max_results) as [Hlt0|Hge].
  2:{ inversion Hrun; subst st'. lia. }
  destruct (ftx_decode_candidate (mon d) cand kLdpcIters) as [message|] eqn:Hdec.
  2:{ destruct (IH st ms Hreach Hrun Hlt) as (ms' & Hr' & Hiff).
      exists ms'. split; [done|]. intros m. rewrite Hiff. split.
      - intros [?|(c & Hc & Hd)]; [by left|].
        right. exists c. split; [by apply list_elem_of_further|done].
      - intros [?|(c & Hc & Hd)]; [by left|].
        apply elem_of_cons in Hc as [->|Hc]; [congruence|]. right. by exists c. }
  destruct (dedup_probe _ _ _) as [[idx|idx]|] eqn:Hprobe; [| |done].
  - destruct (run_unpack _ _) as [[[rc unpacked] g]|l]; [|done].
    apply (IH _ (message :: ms)) in Hrun as (ms' & Hr' & Hiff);
      [|by apply dedup_store|done].
    exists ms'. split; [done|]. intros m. rewrite Hiff, elem_of_cons. split.
    + intros [[->|?]|(c & Hc & Hd)].
      * right. exists cand. split; [apply list_elem_of_here|done].
      * by left.
      * right. exists c. split; [by apply list_elem_of_further|done].
    + intros [?|(c & Hc & Hd)]; [left; by right|].
      apply elem_of_cons in Hc as [->|Hc]; [left; left; congruence|].
      right. by exists c.
  - assert (message ∈ ms) as Hin.
    { apply dedup_probe_hit in Hprobe as (m' & Hm' & Hh & Hp).
      rewrite (message_eq _ _ Hh Hp) in Hm'. by eapply dedup_reachable_slot. }
    destruct (IH st ms Hreach Hrun Hlt) as (ms' & Hr' & Hiff).
    exists ms'. split; [done|]. intros m. rewrite Hiff. split.
    + intros [?|(c & Hc & Hd)]; [by left|].
      right. exists c. split; [by apply list_elem_of_further|done].
    + intros [?|(c & Hc & Hd)]; [by left|].
      apply elem_of_cons in Hc as [->|Hc]; [left; congruence|]. right. by exists c.
Qed.

(** A loop that runs to its end has made the specification's report: the
    records and the callsign table are those of [spec_report] on the first
    unique decodes. *)
Lemma decode_loop_report d max_results cl st ms st' :
  dedup_reachable (decoded_hashtable st) ms →
  (0 ≤ num_decoded st)%Z →
  Z.to_nat max_results ≤ length (out_buf st) →
  decode_loop d max_results cl st = Done st' →
  ∃ records,
    spec_report d (take (Z.to_nat (max_results - num_decoded st))
                     (spec_unique_decoded d ms cl)) (st_cache st)
    = Done (records, st_cache st')
    ∧ num_decoded st' = (num_decoded st + Z.of_nat (length records))%Z
    ∧ out_buf st' = take (Z.to_nat (num_decoded st)) (out_buf st) ++ records
                    ++ drop (Z.to_nat (num_decoded st) + length records) (out_buf st).
Proof.
  revert st ms. induction cl as [|cand rest IH]; intros st ms Hreach Hpos Hcap Hrun.
  { inversion Hrun; subst st'. cbn [spec_unique_decoded]. rewrite take_nil.
    cbn [spec_report]. exists []. split_and!; [done|simpl; lia|].
    cbn [app length]. by rewrite Nat.add_0_r, take_drop. }
  rewrite decode_loop_cons in Hrun.
  destruct (Z.ltb_spec (num_decoded st) max_results) as [Hlt|Hge].
  2:{ inversion Hrun; subst st'.
      replace (Z.to_nat (max_results - num_decoded st)) with 0 by lia.
      rewrite take_0. cbn [spec_report]. exists []. split_and!; [done|simpl; lia|].
      cbn [app length]. by rewrite Nat.add_0_r, take_drop. }
  cbn [spec_unique_decoded].
  destruct (ftx_decode_candidate _ _ _) as [message|]; [|by apply IH].
  destruct (dedup_probe _ _ _) as [[idx|idx]|] eqn:Hprobe; [| |done].
  - destruct (decide (message ∈ ms)) as [Hin|Hnew].
    { destruct (dedup_reachable_finds _ _ _ Hreach Hin) as [i Hi]. congruence. }
    replace (Z.to_nat (max_results - num_decoded st))
      with (S (Z.to_nat (max_results - (num_decoded st + 1)))) by lia.
    rewrite firstn_cons. cbn [spec_report].
    destruct (run_unpack _ _) as [[[rc unpacked] g1]|l]; [|done].
    apply (IH _ (message :: ms)) in Hrun as (records & Hrep & Hnum & Hout);
      [|by apply dedup_store|cbn [num_decoded]; lia
       |cbn [out_buf]; by rewrite length_insert].
    cbn [num_decoded out_buf decoded_hashtable st_cache] in Hrep, Hnum, Hout.
    rewrite Hrep.
    exists (make_result d cand rc unpacked :: records).
    split_and!; [done|cbn [length]; lia|].
    rewrite Hout.
    replace (Z.to_nat (num_decoded st + 1)) with (S (Z.to_nat (num_decoded st))) by lia.
    assert (Z.to_nat (num_decoded st) < length (out_buf st)) as Hroom by lia.
    rewrite (take_S_r _ _ (make_result d cand rc unpacked))
      by (by apply list_lookup_insert_eq).
    rewrite take_insert_ge by lia. rewrite drop_insert_lt by lia.
    rewrite <- app_assoc. cbn [app length].
    replace (Z.to_nat (num_decoded st) + S (length records))
      with (S (Z.to_nat (num_decoded st)) + length records) by lia.
    done.
  - destruct (decide (message ∈ ms)) as [Hin|Hnew]; [by apply IH|].
    apply dedup_probe_hit in Hprobe as (m' & Hm' & Hh & Hp).
    rewrite (message_eq _ _ Hh Hp) in Hm'.
    destruct Hnew. by eapply dedup_reachable_slot.
Qed.

(** The record of the [k]-th message of a report: the message is unpacked on
    the callsign table that the report of the [k] messages before it left. *)
Lemma spec_report_lookup d picks g records g' k c m :
  spec_report d picks g = Done (records, g') →
  picks !! k = Some (c, m) →
  ∃ before gk rc unpacked gk',
    spec_report d (take k picks) g = Done (before, gk)
    ∧ run_unpack (ftx_message_decode m) gk = Done (rc, unpacked, gk')
    ∧ records !! k = Some (make_result d c rc unpacked).
Proof.
  revert g records k.
  induction picks as [|[c0 m0] rest IH]; intros g records k Hrep Hk.
  { by rewrite lookup_nil in Hk. }
  cbn [spec_report] in Hrep.
  destruct (run_unpack (ftx_message_decode m0) g) as [[[rc0 u0] g1]|l] eqn:Hun; [|done].
  destruct (spec_report d rest g1) as [[rs g2]|l] eqn:Hrest; [|done].
  apply Done_inj in Hrep. inversion Hrep; subst records g'. clear Hrep.
  destruct k as [|k].
  - inversion Hk; subst c0 m0. exists [], g, rc0, u0, g1. rewrite take_0. done.
  - cbn [lookup list_lookup] in Hk.
    destruct (IH g1 rs k Hrest Hk) as (before & gk & rc & u & gk' & Hb & Hu & Hr).
    exists (make_result d c0 rc0 u0 :: before), gk, rc, u, gk'.
    split_and!; [|done|done].
    rewrite firstn_cons. cbn [spec_report]. by rewrite Hun, Hb.
Qed.

(** The records of a valid call that returns, each with the unpacking it
    comes from. *)
Lemma ft8_decoder_decode_report d o max_results g r :
  (0 < max_results)%Z → Z.to_nat max_results ≤ length o →
  ft8_decoder_decode (Some d) (Some o) max_results g = Done r →
  let uniq := spec_unique_decoded d []
                (ftx_find_candidates (mon d) kMaxCandidates kMinScore) in
  Z.to_nat (ret r) = Nat.min (Z.to_nat max_results) (length uniq)
  ∧ (0 ≤ ret r)%Z
  ∧ ∃ o', out_after r = Some o'
      ∧ length o' = length o
      ∧ (∀ j, Z.to_nat (ret r) ≤ j → o' !! j = o !! j)
      ∧ ∀ k, k < Z.to_nat (ret r) →
          ∃ c m before gk rc unpacked gk',
            uniq !! k = Some (c, m)
            ∧ spec_report d (take k uniq) g = Done (before, gk)
            ∧ run_unpack (ftx_message_decode m) gk = Done (rc, unpacked, gk')
            ∧ o' !! k = Some (make_result d c rc unpacked).
Proof.
  intros Hpos Hcap. rewrite ft8_decoder_decode_valid by done.
  destruct (decode_loop _ _ _ _) as [st|l] eqn:Hloop; [|done].
  intros Hr uniq. apply Done_inj in Hr. subst r. cbn [ret out_after].
  apply (decode_loop_report _ _ _ _ []) in Hloop as (records & Hrep & Hnum & Hout);
    [|apply dedup_start|done|done].
  cbn [num_decoded out_buf st_cache] in Hrep, Hnum, Hout.
  rewrite Z.sub_0_r in Hrep. fold uniq in Hrep.
  rewrite Z.add_0_l in Hnum. change (Z.to_nat 0) with 0 in Hout.
  rewrite take_0 in Hout. cbn [app Nat.add] in Hout.
  pose proof (spec_report_length _ _ _ _ _ Hrep) as Hlen. rewrite length_take in Hlen.
  split_and!; [lia|lia|].
  exists (out_buf st). split_and!.
  - done.
  - rewrite Hout, length_app, length_drop. lia.
  - intros j Hj. rewrite Hout, lookup_app_r by lia. rewrite lookup_drop. f_equal. lia.
  - intros k Hk.
    destruct (lookup_lt_is_Some_2 (take (Z.to_nat max_results) uniq) k) as [[c m] Hcm].
    { rewrite length_take. lia. }
    destruct (spec_report_lookup _ _ _ _ _ k c m Hrep Hcm)
      as (before & gk & rc & unpacked & gk' & Hb & Hu & Hrec).
    exists c, m, before, gk, rc, unpacked, gk'.
    apply lookup_take_Some in Hcm as [Hcm Hkm].
    rewrite take_take in Hb. replace (k `min` Z.to_nat max_results) with k in Hb by lia.
    split_and!; [done|done|done|].
    rewrite Hout. rewrite lookup_app_l by lia. done.
Qed.

(** The fields of a record. *)
Lemma make_result_fields d c rc unpacked :
  text (make_result d c rc unpacked)
  = strncpy (FTX_MAX_MESSAGE_LENGTH - 1)
      (if bool_decide (rc = FTX_MESSAGE_RC_OK) then unpacked
       else strncpy (FTX_MAX_MESSAGE_LENGTH - 1)
              ("Error [" +:+ pretty rc +:+ "] while unpacking!"))
  ∧ snr_db (make_result d c rc unpacked) = float_mul (float_of_int (score c)) float_half
  ∧ dt_s (make_result d c rc unpacked)
    = float_mul
        (float_add (float_of_int (time_offset c))
           (float_div (float_of_int (time_sub c)) (float_of_int (wf_time_osr (mon d)))))
        (symbol_period (mon d))
  ∧ freq_hz (make_result d c rc unpacked)
    = float_div
        (float_add (float_of_int (min_bin (mon d) + freq_offset c))
           (float_div (float_of_int (freq_sub c)) (float_of_int (wf_freq_osr (mon d)))))
        (symbol_period (mon d)).
Proof.
  split_and!; [|done|done|done].
  unfold make_result. cbn [text]. unfold snprintf_error.
  destruct (decide (rc = FTX_MESSAGE_RC_OK)) as [Heq|Hne].
  - rewrite bool_decide_eq_false_2 by (by intros ?). by rewrite bool_decide_eq_true_2.
  - rewrite bool_decide_eq_true_2 by done. by rewrite bool_decide_eq_false_2.
Qed.

(** ** Duplicates within one decode cycle *)

(** C3.  The loop of [ft8_decoder_decode], started as the function starts
    it, has looked at the candidates [cl1] without filling [max_results]
    records, and the next candidate decodes to [message].  Then every
    message decoded from [cl1] sits in a slot of the table.  The
    [do .. while] loop reports a duplicate exactly when a candidate of [cl1]
    decoded to a message with the same hash and the same payload.  A
    candidate reported as a duplicate is skipped: the whole loop runs as if
    it were not in the list.  A candidate that is not (its message differs
    from each earlier one in hash or in payload) is counted, its message is
    stored in a slot that was [NULL], every other slot stays as it was, so
    each earlier message, also one with the same hash, keeps a slot
    different from the new one, and the message is from then on reported as
    a duplicate. *)
Theorem dedup_by_hash_and_payload
    (d : ft8_decoder_t) (max_results : Z) (o : list ft8_decode_result_t) (g : cache)
    (cl1 : list ftx_candidate_t) (cand : ftx_candidate_t) (st1 : decode_state)
    (message : ftx_message_t) :
  let st0 := {| num_decoded := 0; out_buf := o;
                decoded_hashtable := replicate DECODED_SIZE None; st_cache := g |} in
  decode_loop d max_results cl1 st0 = Done st1 →
  (num_decoded st1 < max_results)%Z →
  ftx_decode_candidate (mon d) cand kLdpcIters = Some message →
  (∀ m, decoded_before d cl1 m → ∃ j, decoded_hashtable st1 !! j = Some (Some m))
  ∧ (found_duplicate (decoded_hashtable st1) message
     ↔ ∃ m, decoded_before d cl1 m ∧ msg_hash m = msg_hash message
            ∧ msg_payload m = msg_payload message)
  ∧ (found_duplicate (decoded_hashtable st1) message →
     ∀ cl2, decode_loop d max_results (cl1 ++ cand :: cl2) st0
            = decode_loop d max_results (cl1 ++ cl2) st0)
  ∧ (¬ found_duplicate (decoded_hashtable st1) message →
     ∀ st2, decode_loop d max_results (cl1 ++ [cand]) st0 = Done st2 →
       num_decoded st2 = (num_decoded st1 + 1)%Z
       ∧ ∃ idx_hash,
           decoded_hashtable st1 !! idx_hash = Some None
           ∧ decoded_hashtable st2 !! idx_hash = Some (Some message)
           ∧ (∀ j, j ≠ idx_hash →
                decoded_hashtable st2 !! j = decoded_hashtable st1 !! j)
           ∧ (∀ m, decoded_before d cl1 m →
                ∃ j, j ≠ idx_hash ∧ decoded_hashtable st2 !! j = Some (Some m))
           ∧ found_duplicate (decoded_hashtable st2) message).
Proof.
  intros st0 Hrun Hlt Hdec.
  destruct (decode_loop_seen d max_results cl1 st0 [] st1 dedup_start Hrun Hlt)
    as (ms1 & Hreach & Hiff).
  assert (∀ m, m ∈ ms1 ↔ decoded_before d cl1 m) as Hms.
  { intros m. rewrite Hiff. split; [|by right]. intros [Hm|?]; [|done].
    by apply elem_of_nil in Hm. }
  assert (∀ m, decoded_before d cl1 m → ∃ j, decoded_hashtable st1 !! j = Some (Some m))
    as Hstored.
  { intros m Hm. apply (dedup_reachable_stored _ ms1); [done|]. by apply Hms. }
  split_and!.
  - exact Hstored.
  - split.
    + intros [i Hi]. apply dedup_probe_hit in Hi as (m & Hm & Hh & Hp).
      exists m. split_and!; [|done|done].
      apply Hms. by eapply dedup_reachable_slot.
    + intros (m & Hm & Hh & Hp). rewrite <- (message_eq m message Hh Hp).
      apply (dedup_reachable_finds _ ms1); [done|]. by apply Hms.
  - intros [i Hi] cl2. rewrite !decode_loop_app, Hrun. unfold mbind, outcome_bind.
    rewrite decode_loop_cons, Hdec, Hi.
    destruct (Z.ltb_spec (num_decoded st1) max_results); [done|lia].
  - intros Hnew st2. rewrite decode_loop_app, Hrun. unfold mbind, outcome_bind.
    rewrite decode_loop_cons, Hdec.
    destruct (Z.ltb_spec (num_decoded st1) max_results) as [_|?]; [|lia].
    destruct (dedup_probe _ _ _) as [[idx|idx]|] eqn:Hprobe; [| |done].
    2:{ destruct Hnew. by exists idx. }
    destruct (run_unpack _ _) as [[[rc unpacked] g1]|l]; [|done].
    cbn [decode_loop]. intros Hst2. apply Done_inj in Hst2. subst st2.
    cbn [num_decoded decoded_hashtable].
    pose proof (dedup_probe_free _ _ _ _ Hprobe) as Hfree.
    split; [done|]. exists idx. split_and!.
    + done.
    + apply list_lookup_insert_eq. by apply lookup_lt_Some in Hfree.
    + intros j Hj. by apply list_lookup_insert_ne.
    + intros m Hm. destruct (Hstored m Hm) as [j Hj].
      assert (j ≠ idx) by (intros ->; congruence).
      exists j. split; [done|]. by rewrite list_lookup_insert_ne.
    + apply (dedup_reachable_finds _ (message :: ms1));
        [by apply dedup_store|apply list_elem_of_here].
Qed.

(** ** Bounded output in candidate order *)


(** ** Termination of the probe of the table of decoded messages *)

(** C6.  The search returns at most 200 candidates and each stores at most
    one message, so within [ft8_decoder_decode] the [do .. while] loop never
    spins.  Whenever the loop, started as the function starts it, has
    looked at a part [cl1] of the candidates and the next candidate decodes
    to [message], the table holds fewer than 200 messages, it has a [NULL]
    slot, and the probe for [message] exits after at most 200 steps, [k]
    slots after the home slot [hash % 200]: at a [NULL] slot, or at a slot
    that holds a message with the hash and the payload of [message].  The
    case of a table without a [NULL] slot does not arise. *)
Theorem dedup_loop_exits_inside_decode
    (d : ft8_decoder_t) (o : list ft8_decode_result_t) (max_results : Z) (g : cache) :
  let cl := ftx_find_candidates (mon d) kMaxCandidates kMinScore in
  let st0 := {| num_decoded := 0; out_buf := o;
                decoded_hashtable := replicate DECODED_SIZE None; st_cache := g |} in
  length cl ≤ kMaxCandidates →
  ft8_decoder_decode (Some d) (Some o) max_results g ≠ Hang LoopDedup
  ∧ ∀ cl1 cand cl2 st1 message,
      cl = cl1 ++ cand :: cl2 →
      decode_loop d max_results cl1 st0 = Done st1 →
      ftx_decode_candidate (mon d) cand kLdpcIters = Some message →
      count_if (λ s, negb (dedup_free s)) (decoded_hashtable st1) < DECODED_SIZE
      ∧ (∃ j, decoded_hashtable st1 !! j = Some None)
      ∧ ∃ r k,
          dedup_probe DECODED_SIZE (decoded_hashtable st1) message = Some r
          ∧ k < DECODED_SIZE
          ∧ stop_idx r = (Z.to_nat (msg_hash message mod 200) + k) mod DECODED_SIZE
          ∧ match r with
            | AtFree i => decoded_hashtable st1 !! i = Some None
            | AtHit i =>
              ∃ m, decoded_hashtable st1 !! i = Some (Some m)
                   ∧ msg_hash m = msg_hash message
                   ∧ msg_payload m = msg_payload message
            end.
Proof.
  intros cl st0 Hcl. split.
  - unfold ft8_decoder_decode. destruct (max_results <=? 0)%Z; [done|].
    pose proof (decode_loop_not_dedup d max_results cl st0 [] dedup_start) as Hnd.
    fold cl. fold st0. unfold mbind, outcome_bind.
    destruct (decode_loop _ _ _ _) as [st|l]; [done|].
    intros [= ->]. apply Hnd; [|done].
    simpl. unfold kMaxCandidates, DECODED_SIZE in *. lia.
  - intros cl1 cand cl2 st1 message Hsplit Hrun Hdec.
    destruct (decode_loop_reachable d max_results cl1 st0 [] st1 dedup_start Hrun)
      as (ms1 & Hreach & Hlen).
    assert (length ms1 < DECODED_SIZE) as Hroom.
    { rewrite Hsplit, length_app in Hcl. cbn [length] in Hcl, Hlen.
      unfold kMaxCandidates, DECODED_SIZE in *. lia. }
    destruct (dedup_reachable_room _ _ Hreach Hroom) as [j Hj].
    split_and!.
    + by rewrite (dedup_reachable_count _ ms1).
    + by exists j.
    + destruct (linear_probe_total DECODED_SIZE dedup_free (dedup_match message)
                  size_200_pos (decoded_hashtable st1)
                  (Z.to_nat (msg_hash message mod 200)) j None) as [r Hr];
        [by eapply dedup_reachable_length|apply probe_start_lt_200|done|by left|].
      pose proof Hr as Hsound.
      apply linear_probe_sound in Hsound as (k & Hk & Hidx & _ & _);
        [|apply size_200_pos|apply probe_start_lt_200].
      exists r, k. split_and!; [done|done|done|].
      destruct r as [i|i].
      * by eapply dedup_probe_free.
      * by eapply dedup_probe_hit.
Qed.

(** ** The decode cycle as a whole *)

(** X17.  A valid call with at most 200 candidates does what the
    specification's list version does, hangs included: it unpacks the
    first [max_results] unique decodes in candidate order, each on the
    callsign table the one before left; it returns their number, writes
    their records to the front of the buffer and leaves the rest of the
    buffer as it was; and it ages the callsign table once, after the last
    unpack. *)
Theorem decode_is_the_specified_report
    (d : ft8_decoder_t) (o : list ft8_decode_result_t) (max_results : Z) (g : cache) :
  (0 < max_results)%Z → Z.to_nat max_results ≤ length o →
  length (ftx_find_candidates (mon d) kMaxCandidates kMinScore) ≤ kMaxCandidates →
  ft8_decoder_decode (Some d) (Some o) max_results g =
  match spec_report d
          (take (Z.to_nat max_results)
             (spec_unique_decoded d []
                (ftx_find_candidates (mon d) kMaxCandidates kMinScore))) g with
  | Done (records, g') =>
    Done {| ret := Z.of_nat (length records); dec_after := Some d;
            out_after := Some (records ++ drop (length records) o);
            cache_after := hashtable_cleanup 10 g' |}
  | Hang l => Hang l
  end.
Proof.
  intros Hpos Hcap Hcl. rewrite ft8_decoder_decode_valid by done.
  pose proof (decode_loop_spec d max_results
                (ftx_find_candidates (mon d) kMaxCandidates kMinScore)
                {| num_decoded := 0; out_buf := o;
                   decoded_hashtable := replicate DECODED_SIZE None; st_cache := g |}
                [] dedup_start) as Hspec.
  cbn [num_decoded out_buf st_cache] in Hspec. rewrite Z.sub_0_r in Hspec.
  specialize (Hspec ltac:(cbn [length]; unfold kMaxCandidates, DECODED_SIZE in *; lia)
                    ltac:(lia) Hcap).
  destruct (spec_report _ _ _) as [[records g']|l]; [|by rewrite Hspec].
  destruct Hspec as (st' & -> & Hnum & Hout & Hcache).
  rewrite Hnum, Hout, Hcache. by rewrite Z.add_0_l.
Qed.

(** X8.  A valid call in which no candidate decodes, the call without
    candidates included, returns 0 and leaves the buffer as it was, and it
    still ages the callsign table by one cycle. *)
Theorem decode_without_messages
    (d : ft8_decoder_t) (o : list ft8_decode_result_t) (max_results : Z) (g : cache) :
  (0 < max_results)%Z →
  (∀ c, c ∈ ftx_find_candidates (mon d) kMaxCandidates kMinScore →
        ftx_decode_candidate (mon d) c kLdpcIters = None) →
  ft8_decoder_decode (Some d) (Some o) max_results g
  = Done {| ret := 0; dec_after := Some d; out_after := Some o;
            cache_after := hashtable_cleanup 10 g |}.
Proof.
  intros Hpos Hnone. rewrite ft8_decoder_decode_valid by done.
  by rewrite decode_loop_no_message.
Qed.

(** X9.  The number of results of a valid call depends on the waterfall of
    the decoder and on [max_results] only: not on the callsign table, not
    on the buffer, and not on an earlier call.  The table of decoded
    messages starts empty in every call, so a second call over the same
    waterfall reports as many results as the first. *)
Theorem decode_count_is_that_of_the_waterfall
    (d : ft8_decoder_t) (o1 o2 : list ft8_decode_result_t) (max_results : Z)
    (g1 g2 : cache) (r1 r2 : decode_return) :
  (0 < max_results)%Z →
  ft8_decoder_decode (Some d) (Some o1) max_results g1 = Done r1 →
  ft8_decoder_decode (Some d) (Some o2) max_results g2 = Done r2 →
  ret r1 = ret r2.
Proof.
  intros Hpos Hr1 Hr2.
  rewrite (ft8_decoder_decode_count d o1 max_results g1 r1 Hpos Hr1).
  by rewrite (ft8_decoder_decode_count d o2 max_results g2 r2 Hpos Hr2).
Qed.

(** X10.  The loop over a candidate list in two parts is the loop over the
    first part followed by the loop over the second; and when the first
    part has filled [max_results] records, the second part is not looked
    at. *)
Theorem decode_loop_in_two_parts
    (d : ft8_decoder_t) (max_results : Z) (cl1 cl2 : list ftx_candidate_t)
    (st : decode_state) :
  decode_loop d max_results (cl1 ++ cl2) st
  = (decode_loop d max_results cl1 st ≫= decode_loop d max_results cl2)
  ∧ ∀ st1, decode_loop d max_results cl1 st = Done st1 →
           (max_results ≤ num_decoded st1)%Z →
           decode_loop d max_results (cl1 ++ cl2) st = Done st1.
Proof.
  assert (∀ st, decode_loop d max_results (cl1 ++ cl2) st
                = (decode_loop d max_results cl1 st ≫= decode_loop d max_results cl2))
    as Happ.
  { clear st. induction cl1 as [|cand rest IH]; intros st; [done|].
    cbn [app]. rewrite !decode_loop_cons.
    destruct (Z.ltb_spec (num_decoded st) max_results) as [Hlt|Hge].
    2:{ unfold mbind, outcome_bind. by rewrite decode_loop_capped. }
    destruct (ftx_decode_candidate _ _ _) as [message|]; [|apply IH].
    destruct (dedup_probe _ _ _) as [[idx|idx]|]; [|apply IH|done].
    destruct (run_unpack _ _) as [[[rc unpacked] g]|l]; [apply IH|done]. }
  split; [apply Happ|].
  intros st1 Hrun Hcap. rewrite Happ, Hrun. unfold mbind, outcome_bind.
  by apply decode_loop_capped.
Qed.

(** X11.  No record overflows its text field, and the text of a record is
    the text its own message unpacked to: record [k] of a valid call that
    returns comes from the [k]-th unique decode, whose message is unpacked
    on the callsign table the unpackings before it left; its text has at
    most [FTX_MAX_MESSAGE_LENGTH - 1] characters; when the unpacking
    succeeds it is the unpacked text cut to the field, and the unpacked text
    itself when that fits. *)
Theorem record_texts_fit_the_field
    (d : ft8_decoder_t) (o : list ft8_decode_result_t) (max_results : Z) (g : cache)
    (r : decode_return) :
  (0 < max_results)%Z → Z.to_nat max_results ≤ length o →
  ft8_decoder_decode (Some d) (Some o) max_results g = Done r →
  let uniq := spec_unique_decoded d []
                (ftx_find_candidates (mon d) kMaxCandidates kMinScore) in
  ∃ o', out_after r = Some o'
    ∧ ∀ k, k < Z.to_nat (ret r) →
        ∃ c m before gk rc unpacked gk' record,
          uniq !! k = Some (c, m)
          ∧ spec_report d (take k uniq) g = Done (before, gk)
          ∧ run_unpack (ftx_message_decode m) gk = Done (rc, unpacked, gk')
          ∧ o' !! k = Some record
          ∧ String.length (text record) ≤ FTX_MAX_MESSAGE_LENGTH - 1
          ∧ (rc = FTX_MESSAGE_RC_OK →
             text record = strncpy (FTX_MAX_MESSAGE_LENGTH - 1) unpacked
             ∧ (String.length unpacked ≤ FTX_MAX_MESSAGE_LENGTH - 1 →
                text record = unpacked)).
Proof.
  intros Hpos Hcap Hrun uniq.
  destruct (ft8_decoder_decode_report d o max_results g r Hpos Hcap Hrun)
    as (_ & _ & o' & Ho' & _ & _ & Hrec).
  exists o'. split; [done|]. intros k Hk.
  destruct (Hrec k Hk) as (c & m & before & gk & rc & unpacked & gk' & Hu & Hb & Hun & Hk').
  exists c, m, before, gk, rc, unpacked, gk', (make_result d c rc unpacked).
  split_and!; [done|done|done|done| |].
  - unfold make_result. cbn [text]. apply strncpy_length.
  - intros ->. destruct (make_result_fields d c FTX_MESSAGE_RC_OK unpacked) as [Ht _].
    rewrite bool_decide_eq_true_2 in Ht by done.
    split; [done|]. intros Hlen. rewrite Ht. by apply strncpy_short.
Qed.

(** X12.  The records of a valid call come from candidates of the search,
    in the order of the search, each from a candidate that decoded, and no
    two of them from equal messages (same hash and same payload). *)
Theorem decode_reports_no_message_twice
    (d : ft8_decoder_t) (o : list ft8_decode_result_t) (max_results : Z) (g : cache)
    (r : decode_return) :
  (0 < max_results)%Z → Z.to_nat max_results ≤ length o →
  ft8_decoder_decode (Some d) (Some o) max_results g = Done r →
  ∃ o' picks,
    out_after r = Some o'
    ∧ length picks = Z.to_nat (ret r)
    ∧ NoDup picks.*2
    ∧ picks.*1 `sublist_of` ftx_find_candidates (mon d) kMaxCandidates kMinScore
    ∧ ∀ k c m, picks !! k = Some (c, m) →
        ftx_decode_candidate (mon d) c kLdpcIters = Some m
        ∧ ∃ rc unpacked, o' !! k = Some (make_result d c rc unpacked).
Proof.
  intros Hpos Hcap Hrun.
  destruct (ft8_decoder_decode_records d o max_results g r Hpos Hcap Hrun)
    as (Hret & Hret0 & o' & Ho' & Hrec).
  set (cl := ftx_find_candidates (mon d) kMaxCandidates kMinScore) in *.
  set (uniq := spec_unique_decoded d [] cl) in *.
  exists o', (take (Z.to_nat (ret r)) uniq). split_and!.
  - done.
  - rewrite length_take. lia.
  - rewrite fmap_take.
    eapply sublist_NoDup; [apply (spec_unique_decoded_NoDup d [] cl)|apply sublist_take].
  - rewrite fmap_take. etrans; [apply sublist_take|]. apply spec_unique_decoded_sublist.
  - intros k c m Hk. apply lookup_take_Some in Hk as [Hk Hlt].
    split.
    + assert ((c, m) ∈ uniq) as Hin by (apply list_elem_of_lookup; by exists k).
      by apply spec_unique_decoded_elem in Hin as (_ & ? & _).
    + destruct (Hrec k Hlt) as (c' & m' & rc & unpacked & Hk' & Hr).
      rewrite Hk in Hk'. inversion Hk'; subst c' m'. by exists rc, unpacked.
Qed.

(** X16.  Below the cap nothing is lost: when a valid call returns fewer
    than [max_results] results, every candidate that decodes has its
    message among the records, written from the first candidate that
    decoded to that message. *)
Theorem decode_reports_every_message_below_cap
    (d : ft8_decoder_t) (o : list ft8_decode_result_t) (max_results : Z) (g : cache)
    (r : decode_return) (c : ftx_candidate_t) (m : ftx_message_t) :
  (0 < max_results)%Z → Z.to_nat max_results ≤ length o →
  ft8_decoder_decode (Some d) (Some o) max_results g = Done r →
  (ret r < max_results)%Z →
  c ∈ ftx_find_candidates (mon d) kMaxCandidates kMinScore →
  ftx_decode_candidate (mon d) c kLdpcIters = Some m →
  ∃ o' k c' rc unpacked,
    out_after r = Some o' ∧ k < Z.to_nat (ret r)
    ∧ ftx_decode_candidate (mon d) c' kLdpcIters = Some m
    ∧ o' !! k = Some (make_result d c' rc unpacked).
Proof.
  intros Hpos Hcap Hrun Hbelow Hc Hdec.
  destruct (ft8_decoder_decode_records d o max_results g r Hpos Hcap Hrun)
    as (Hret & Hret0 & o' & Ho' & Hrec).
  set (cl := ftx_find_candidates (mon d) kMaxCandidates kMinScore) in *.
  set (uniq := spec_unique_decoded d [] cl) in *.
  assert (m ∈ uniq.*2) as Hin.
  { apply spec_unique_decoded_complete with c; [done|done|]. apply not_elem_of_nil. }
  apply list_elem_of_fmap in Hin as ([c' m'] & Hm & Hin). cbn in Hm. subst m'.
  apply list_elem_of_lookup in Hin as [k Hk].
  assert (k < Z.to_nat (ret r)) as Hlt.
  { apply lookup_lt_Some in Hk. lia. }
  destruct (Hrec k Hlt) as (c'' & m'' & rc & unpacked & Hk' & Hr).
  rewrite Hk in Hk'. inversion Hk'; subst c'' m''.
  exists o', k, c', rc, unpacked. split_and!; [done|done| |done].
  assert ((c', m) ∈ uniq) as Hin by (apply list_elem_of_lookup; by exists k).
  by apply spec_unique_decoded_elem in Hin as (_ & ? & _).
Qed.

End wrapper_more_facts.

(** ** The further properties of the wrapper on runs of the toy instance *)

Lemma toy_decode_returns candidates o max_results g :
  (0 < max_results)%Z → length candidates ≤ 200 →
  cache_wf g → length candidates < free_slots g →
  returns (@ft8_decoder_decode toy_lib (Some (toy_decoder candidates)) (Some o)
             max_results g).
Proof.
  intros Hpos Hlen Hwf Hfree.
  assert (length (@ftx_find_candidates toy_lib candidates kMaxCandidates kMinScore)
          ≤ length candidates) as Hle.
  { cbn [ftx_find_candidates toy_lib]. rewrite length_take.
    etrans; [apply Nat.le_min_r|]. clear.
    induction candidates as [|c cl IH]; simpl; [done|]. destruct (_ <=? _)%Z; simpl; lia. }
  apply (@ft8_decoder_decode_returns toy_lib (toy_decoder candidates) o max_results g 1).
  - done.
  - cbn [mon toy_decoder]. unfold kMaxCandidates at 2. lia.
  - done.
  - intros c m _ _. apply toy_unpack_saves.
  - cbn [mon toy_decoder]. lia.
Qed.

Lemma decode_is_the_specified_report_witness :
  (0 < 10)%Z ∧ Z.to_nat 10 ≤ length (replicate 12 toy_blank)
  ∧ length (@ftx_find_candidates toy_lib fifty_candidates kMaxCandidates kMinScore)
    ≤ kMaxCandidates
  ∧ @ft8_decoder_decode toy_lib (Some (toy_decoder fifty_candidates))
      (Some (replicate 12 toy_blank)) 10 hashtable_init
    = match @spec_report toy_lib (toy_decoder fifty_candidates)
              (take (Z.to_nat 10)
                 (@spec_unique_decoded toy_lib (toy_decoder fifty_candidates) []
                    (@ftx_find_candidates toy_lib fifty_candidates kMaxCandidates
                       kMinScore)))
              hashtable_init with
      | Done (records, g') =>
        Done (@Build_decode_return toy_lib (Z.of_nat (length records))
                (Some (toy_decoder fifty_candidates))
                (Some (records ++ drop (length records) (replicate 12 toy_blank)))
                (hashtable_cleanup 10 g'))
      | Hang l => Hang l
      end.
Proof.
  assert (length (@ftx_find_candidates toy_lib fifty_candidates kMaxCandidates kMinScore)
          ≤ kMaxCandidates) as Hcl by (vm_compute; lia).
  split; [lia|]. split; [simpl; lia|]. split; [exact Hcl|].
  apply (@decode_is_the_specified_report toy_lib (toy_decoder fifty_candidates)
           (replicate 12 toy_blank) 10 hashtable_init); [lia|simpl; lia|exact Hcl].
Defined.

Lemma decode_without_messages_witness :
  (0 < 4)%Z
  ∧ @ftx_find_candidates toy_lib [toy_weak_cand] kMaxCandidates kMinScore = [toy_weak_cand]
  ∧ @ft8_decoder_decode toy_lib (Some (toy_decoder [toy_weak_cand]))
      (Some (replicate 4 toy_blank)) 4 k1abc_saved
    = Done (@Build_decode_return toy_lib 0 (Some (toy_decoder [toy_weak_cand]))
              (Some (replicate 4 toy_blank)) (hashtable_cleanup 10 k1abc_saved)).
Proof.
  split; [lia|]. split; [reflexivity|].
  apply (@decode_without_messages toy_lib (toy_decoder [toy_weak_cand])
           (replicate 4 toy_blank) 4 k1abc_saved); [lia|].
  intros c Hc. change (c ∈ [toy_weak_cand]) in Hc.
  apply list_elem_of_singleton in Hc as ->. reflexivity.
Defined.

Lemma decode_count_is_that_of_the_waterfall_witness :
  (0 < 10)%Z
  ∧ ∃ r1 r2,
      @ft8_decoder_decode toy_lib (Some (toy_decoder fifty_candidates))
        (Some (replicate 12 toy_blank)) 10 hashtable_init = Done r1
      ∧ @ft8_decoder_decode toy_lib (Some (toy_decoder fifty_candidates))
          (Some (replicate 10 toy_blank)) 10 k1abc_saved = Done r2
      ∧ ret r1 = ret r2.
Proof.
  split; [lia|].
  destruct (toy_decode_returns fifty_candidates (replicate 12 toy_blank) 10 hashtable_init)
    as [r1 Hr1]; [lia|simpl; lia|reflexivity|vm_compute; lia|].
  destruct (toy_decode_returns fifty_candidates (replicate 10 toy_blank) 10 k1abc_saved)
    as [r2 Hr2]; [lia|simpl; lia|reflexivity|vm_compute; lia|].
  exists r1, r2. split; [exact Hr1|]. split; [exact Hr2|].
  apply (@decode_count_is_that_of_the_waterfall toy_lib (toy_decoder fifty_candidates)
           (replicate 12 toy_blank) (replicate 10 toy_blank) 10 hashtable_init k1abc_saved
           r1 r2); [lia|exact Hr1|exact Hr2].
Defined.

Lemma decode_reports_no_message_twice_witness :
  (0 < 4)%Z ∧ Z.to_nat 4 ≤ length (replicate 4 toy_blank)
  ∧ ∃ r, @ft8_decoder_decode toy_lib (Some (toy_decoder three_candidates))
           (Some (replicate 4 toy_blank)) 4 hashtable_init = Done r
       ∧ ∃ picks : list (ftx_candidate_t * ftx_message_t),
           length picks = Z.to_nat (ret r) ∧ NoDup picks.*2.
Proof.
  split; [lia|]. split; [simpl; lia|].
  destruct (toy_decode_returns three_candidates (replicate 4 toy_blank) 4 hashtable_init)
    as [r Hr]; [lia|simpl; lia|reflexivity|vm_compute; lia|].
  exists r. split; [exact Hr|].
  destruct (@decode_reports_no_message_twice toy_lib (toy_decoder three_candidates)
              (replicate 4 toy_blank) 4 hashtable_init r)
    as (o' & picks & _ & Hlen & Hnodup & _); [lia|simpl; lia|exact Hr|].
  exists picks. split; [exact Hlen|exact Hnodup].
Defined.

Lemma decode_reports_every_message_below_cap_witness :
  (0 < 4)%Z ∧ Z.to_nat 4 ≤ length (replicate 4 toy_blank)
  ∧ ∃ r, @ft8_decoder_decode toy_lib (Some (toy_decoder three_candidates))
           (Some (replicate 4 toy_blank)) 4 hashtable_init = Done r
       ∧ (ret r < 4)%Z
       ∧ ∃ o' k c' rc unpacked,
           out_after r = Some o' ∧ k < Z.to_nat (ret r)
           ∧ @ftx_decode_candidate toy_lib three_candidates c' kLdpcIters
             = Some {| msg_payload := payload_of_byte 3; msg_hash := 8 |}
           ∧ o' !! k = Some (@make_result toy_lib (toy_decoder three_candidates)
                               c' rc unpacked).
Proof.
  split; [lia|]. split; [simpl; lia|].
  destruct (toy_decode_returns three_candidates (replicate 4 toy_blank) 4 hashtable_init)
    as [r Hr]; [lia|simpl; lia|reflexivity|vm_compute; lia|].
  assert (ret r < 4)%Z as Hbelow.
  { assert (0 < 4)%Z as Hpos by lia.
    rewrite (@ft8_decoder_decode_count toy_lib _ _ _ _ _ Hpos Hr).
    vm_compute. reflexivity. }
  exists r. split; [exact Hr|]. split; [exact Hbelow|].
  apply (@decode_reports_every_message_below_cap toy_lib (toy_decoder three_candidates)
           (replicate 4 toy_blank) 4 hashtable_init r (toy_cand 8 3)
           {| msg_payload := payload_of_byte 3; msg_hash := 8 |});
    [lia|simpl; lia|exact Hr|exact Hbelow| |reflexivity].
  change (toy_cand 8 3 ∈ three_candidates). unfold three_candidates.
  do 2 apply list_elem_of_further. apply list_elem_of_here.
Defined.

(** ** Duplicates, bounded output and the probe loop on runs of the toy instance *)



(** Two messages with the hash 7 and different payloads, then the second of
    them again: both are in the table, and the third candidate is reported
    as a duplicate. *)
Lemma dedup_by_hash_and_payload_witness :
  ∃ st1,
    @decode_loop toy_lib (toy_decoder []) 4 [toy_cand 7 40; toy_cand 7 41]
      (toy_start (replicate 4 toy_blank)) = Done st1
    ∧ (num_decoded st1 < 4)%Z
    ∧ @ftx_decode_candidate toy_lib [] (toy_cand 7 41) kLdpcIters
      = Some {| msg_payload := payload_of_byte 41; msg_hash := 7 |}
    ∧ found_duplicate (decoded_hashtable st1)
        {| msg_payload := payload_of_byte 41; msg_hash := 7 |}
    ∧ ∃ j, decoded_hashtable st1 !! j
           = Some (Some {| msg_payload := payload_of_byte 40; msg_hash := 7 |}).
Proof.
  destruct (@decode_loop_returns toy_lib (toy_decoder []) 4 [toy_cand 7 40; toy_cand 7 41] 1
              (toy_start (replicate 4 toy_blank)) []) as [st1 Hrun].
  { apply dedup_start. }
  { simpl. unfold DECODED_SIZE. lia. }
  { reflexivity. }
  { intros c m _ _. apply toy_unpack_saves. }
  { vm_compute. lia. }
  assert (num_decoded st1 < 4)%Z as Hlt.
  { destruct (@decode_loop_Done toy_lib (toy_decoder []) 4 [toy_cand 7 40; toy_cand 7 41]
                (toy_start (replicate 4 toy_blank)) [] st1 dedup_start) as [Hnum _];
      [simpl; lia|exact Hrun|].
    rewrite Hnum. vm_compute. reflexivity. }
  exists st1. split; [exact Hrun|]. split; [exact Hlt|]. split; [reflexivity|].
  destruct (@dedup_by_hash_and_payload toy_lib (toy_decoder []) 4 (replicate 4 toy_blank)
              hashtable_init [toy_cand 7 40; toy_cand 7 41] (toy_cand 7 41) st1
              {| msg_payload := payload_of_byte 41; msg_hash := 7 |})
    as (Hstored & Hdup & _); [exact Hrun|exact Hlt|reflexivity|].
  split.
  - apply Hdup. exists {| msg_payload := payload_of_byte 41; msg_hash := 7 |}.
    split; [|done]. exists (toy_cand 7 41). split; [|reflexivity].
    apply list_elem_of_further, list_elem_of_here.
  - apply Hstored. exists (toy_cand 7 40). split; [apply list_elem_of_here|reflexivity].
Defined.


Lemma dedup_loop_exits_inside_decode_witness :
  length (@ftx_find_candidates toy_lib fifty_candidates kMaxCandidates kMinScore)
  ≤ kMaxCandidates
  ∧ @ft8_decoder_decode toy_lib (Some (toy_decoder fifty_candidates))
      (Some (replicate 12 toy_blank)) 10 hashtable_init ≠ Hang LoopDedup.
Proof.
  assert (length (@ftx_find_candidates toy_lib fifty_candidates kMaxCandidates kMinScore)
          ≤ kMaxCandidates) as Hcl by (vm_compute; lia).
  split; [exact Hcl|].
  destruct (@dedup_loop_exits_inside_decode toy_lib (toy_decoder fifty_candidates)
              (replicate 12 toy_blank) 10 hashtable_init Hcl) as [Hnd _].
  exact Hnd.
Defined.

Lemma record_texts_fit_the_field_witness :
  (0 < 4)%Z ∧ Z.to_nat 4 ≤ length (replicate 4 toy_blank)
  ∧ ∃ r, @ft8_decoder_decode toy_lib (Some (toy_decoder three_candidates))
           (Some (replicate 4 toy_blank)) 4 hashtable_init = Done r
       ∧ ∃ o', out_after r = Some o'
           ∧ ∀ k, k < Z.to_nat (ret r) →
               ∃ record, o' !! k = Some record ∧ String.length (text record) ≤ 35 - 1.
Proof.
  split; [lia|]. split; [simpl; lia|].
  destruct (toy_decode_returns three_candidates (replicate 4 toy_blank) 4 hashtable_init)
    as [r Hr]; [lia|simpl; lia|reflexivity|vm_compute; lia|].
  exists r. split; [exact Hr|].
  destruct (@record_texts_fit_the_field toy_lib (toy_decoder three_candidates)
              (replicate 4 toy_blank) 4 hashtable_init r) as (o' & Ho' & Hfit);
    [lia|simpl; lia|exact Hr|].
  exists o'. split; [exact Ho'|]. intros k Hk.
  destruct (Hfit k Hk) as (c & m & before & gk & rc & unpacked & gk' & record
                           & _ & _ & _ & Hrec & Hlen & _).
  exists record. split; [exact Hrec|exact Hlen].
Defined.
